(** * Pokemon dashboard: the list-and-details fetcher

    A shallow embedding of [src/utils/pokemonFetcher.ts]
    ([fetchPokemonListWithDetails]) together with the record types of
    [src/types/pokemon.ts] that the routine reads or builds, followed by
    the timing tracker of the same file, the list component and the
    handlers of the application component.

    Conventions of the model.
    - Time is logical and counted in milliseconds from the moment the
      routine is called, as a natural number ([N]).  Synchronous code
      takes no time; time passes only while a promise is awaited.
    - The network is part of the environment: for every request it says
      when the response arrives (or that it never does), how long reading
      the body takes and what the body parses to.
    - [Math.random()] is part of the environment too: a finite list of the
      samples it hands out, in call order.  A run that needs more samples
      than the list holds is reported as [Spinning]: the loop is still
      running after it consumed every sample of that prefix.  A sample is a
      binary64 number, written as the rational it denotes, and the product
      of line 33, the one floating-point operation of the routine, is
      rounded as binary64 rounds it.
    - The order in which the runtime delivers the settlements of the detail
      promises to [Promise.allSettled] is a parameter of the run. *)

From Stdlib Require Import ZArith QArith Lia.
From stdpp Require Import base option list gmap strings.

Local Open Scope Z_scope.
Local Open Scope nat_scope.

(** ** Data model ([src/types/pokemon.ts]) *)

Module Types.

(** [PokemonListItem]: basic information from the list endpoint. *)
Record PokemonListItem : Type := mkListItem {
  li_name : string;
  li_url : string;
}.

(** [PokemonWithImage]: [image: string | null], [isLoading?: boolean]. *)
Record PokemonWithImage : Type := mkWithImage {
  name : string;
  url : string;
  image : option string;
  isLoading : option bool;
}.

(** [PokemonSprites], restricted to the member the fetcher reads:
    [front_default: string | null]. *)
Record PokemonSprites : Type := mkSprites {
  front_default : option string;
}.

(** [Pokemon], the parsed detail record, restricted to [sprites].  The value
    comes from [response.json()], so at run time the member may be absent
    whatever the declared type says: [None] stands for a parsed value with
    no [sprites] object. *)
Record Pokemon : Type := mkPokemon {
  sprites : option PokemonSprites;
}.

(** [PokemonListResponse], restricted to [results]; [None] stands for a
    parsed value whose [results] member is absent or [null].  The value
    comes from [response.json()], so whatever the declared type says an
    entry of the array may be [null], written [None]; an entry that is an
    object is read at its declared type, [PokemonListItem]. *)
Record PokemonListResponse : Type := mkListResponse {
  results : option (list (option PokemonListItem));
}.

#[global] Instance PokemonListItem_eq_dec : EqDecision PokemonListItem.
Proof. solve_decision. Defined.

#[global] Instance PokemonWithImage_eq_dec : EqDecision PokemonWithImage.
Proof. solve_decision. Defined.

End Types.
Export Types.

(** ** Runtime values: errors, completions, the network *)

(** The exceptions the routine can meet. *)
Inductive error : Type :=
| TypeError      (* member access on [undefined] *)
| SyntaxError    (* [response.json()] on a body that is not JSON *)
| NetworkError   (* [fetch] rejected by the transport *)
| AbortError.    (* [fetch] rejected because its signal was aborted *)

#[global] Instance error_eq_dec : EqDecision error.
Proof. solve_decision. Defined.

(** How a piece of the routine ends. *)
Inductive outcome (A : Type) : Type :=
| Returned (a : A)   (* normal completion; for a promise: fulfilled *)
| Threw (e : error)  (* exception; for a promise: rejected *)
| Spinning           (* still looping when the given samples ran out *)
| Pending.           (* awaiting a promise that never settles *)
Arguments Returned {A} a.
Arguments Threw {A} e.
Arguments Spinning {A}.
Arguments Pending {A}.

(** What [response.json()] yields. *)
Inductive json_body (A : Type) : Type :=
| Parsed (v : A)
| Unparsable.
Arguments Parsed {A} v.
Arguments Unparsable {A}.

(** What the network does with one request.  [Arrives t r b]: the [fetch]
    promise resolves at [t] ms after dispatch (the status code plays no
    role: the routine never reads [response.ok]) and reading the body takes
    [r] more ms.  [Rejects t]: the transport fails at [t] ms.  [Silent]:
    nothing ever comes back. *)
Inductive response (A : Type) : Type :=
| Arrives (at_ms read_ms : N) (b : json_body A)
| Rejects (at_ms : N)
| Silent.
Arguments Arrives {A} at_ms read_ms b.
Arguments Rejects {A} at_ms.
Arguments Silent {A}.

(** The HTTP exchange behind a detail response that arrives.  [fetch]
    resolves whatever the status code is, and lines 50-55 read neither
    [response.ok] nor [response.status]: what the routine sees of an
    exchange is [observed], where the code is gone. *)
Module Http.

Record reply : Type := mkReply {
  code : N;                    (* [response.status] *)
  arrives_after : N;           (* ms until the headers are there *)
  read_after : N;              (* ms to read the body *)
  payload : json_body Pokemon; (* what [response.json()] yields *)
}.

(** [response.ok]: the status is in the range 200-299. *)
Definition ok (r : reply) : bool := (200 <=? code r)%N && (code r <? 300)%N.

Definition observed (r : reply) : response Pokemon :=
  Arrives (arrives_after r) (read_after r) (payload r).

End Http.

(** ** Phase 1: random selection (lines 28-44) *)

(** A value of [Math.random()]: a binary64 number of the half-open unit
    interval, written here as the rational [m / 2^e] with [m < 2^53] and
    [e] at most 1074, the exponent of the least positive binary64. *)
Definition double_sample (u : Q) : Prop :=
  let e := Z.log2 (Z.pos (Qden u)) in
  Z.pos (Qden u) = (2 ^ e)%Z ∧ (e ≤ 1074)%Z ∧
  (0 ≤ Qnum u < 2 ^ 53)%Z ∧ (Qnum u < Z.pos (Qden u))%Z.

Global Instance double_sample_dec u : Decision (double_sample u).
Proof. unfold double_sample. apply _. Defined.

(** Rounding of a natural number to 53 significant bits, to nearest and
    ties to even: what binary64 keeps of an exact product. *)
Definition round53 (n : Z) : Z :=
  let bits := (Z.log2 n + 1)%Z in
  if (bits <=? 53)%Z then n
  else
    let s := (bits - 53)%Z in
    let q := Z.shiftr n s in
    let r := (n - Z.shiftl q s)%Z in
    let half := Z.shiftl 1 (s - 1) in
    let q' := if (half <? r)%Z || ((r =? half)%Z && Z.odd q) then (q + 1)%Z else q in
    Z.shiftl q' s.

(** [Math.floor(Math.random() * data.results.length)].  For the sample
    [m / 2^e] the exact product is [(m * len) / 2^e]; the multiplication
    rounds it to binary64, that is, rounds [m * len] to 53 significant bits
    (the divisor is a power of two), and [Math.floor] then rounds down. *)
Definition randomIndex (u : Q) (len : nat) : Z :=
  (round53 (Qnum u * Z.of_nat len) / Z.pos (Qden u))%Z.

(** [data.results[randomIndex]]: [undefined] outside the array.  [None]
    also when the entry is [null]: in both cases the access to [name] on
    line 38 throws. *)
Definition item_at (rs : list (option PokemonListItem)) (i : Z) : option PokemonListItem :=
  if (i <? 0)%Z then None else mjoin (rs !! Z.to_nat i).

(** The object pushed on [randomPokemon]. *)
Definition placeholder (pokemon : PokemonListItem) : PokemonWithImage :=
  {| name := li_name pokemon; url := li_url pokemon;
     image := None; isLoading := Some true |}.

(** The [while] loop.  The state is the pair [usedIndices], [randomPokemon];
    one iteration consumes one sample. *)
Fixpoint select_loop (data : PokemonListResponse) (count : Z) (samples : list Q)
    (usedIndices : gset Z) (randomPokemon : list PokemonWithImage)
    : outcome (list PokemonWithImage) :=
  if (Z.of_nat (length randomPokemon) <? count)%Z then
    match samples with
    | [] => Spinning
    | u :: samples' =>
        match results data with
        | None => Threw TypeError
        | Some rs =>
            let i := randomIndex u (length rs) in
            if bool_decide (i ∈ usedIndices) then
              select_loop data count samples' usedIndices randomPokemon
            else
              match item_at rs i with
              | None => Threw TypeError
              | Some pokemon =>
                  select_loop data count samples' ({[ i ]} ∪ usedIndices)
                    (randomPokemon ++ [placeholder pokemon])
              end
        end
    end
  else Returned randomPokemon.

(** Lines 29-44: the loop from its initial state. *)
Definition selectRandom (data : PokemonListResponse) (count : Z) (samples : list Q)
    : outcome (list PokemonWithImage) :=
  select_loop data count samples ∅ [].


(** ** Phase 2: one detail task (the callback of lines 47-72) *)

(** How [await fetch(pokemon.url, { signal })] ends when the abort timer is
    set to [requestTimeout] ms: whatever happens strictly before the timer
    wins, otherwise the timer fires, [controller.abort()] runs and the
    [fetch] promise rejects. *)
Inductive fetch_end (A : Type) : Type :=
| Resolved (at_ms read_ms : N) (b : json_body A)
| Failed (at_ms : N)
| Aborted.
Arguments Resolved {A} at_ms read_ms b.
Arguments Failed {A} at_ms.
Arguments Aborted {A}.

Definition await_fetch {A} (requestTimeout : N) (r : response A) : fetch_end A :=
  match r with
  | Arrives t rd b => if (t <? requestTimeout)%N then Resolved t rd b else Aborted
  | Rejects t => if (t <? requestTimeout)%N then Failed t else Aborted
  | Silent => Aborted
  end.

(** What the [try] block computes: the time at which it ends, and either
    the exception that left it or the object it returns (lines 49-61).
    Once the response is there the timer is cleared (line 53), so the body
    read of line 55 runs without a deadline. *)
Definition try_block (requestTimeout : N) (pokemon : PokemonWithImage)
    (r : response Pokemon) : N * (error + PokemonWithImage) :=
  match await_fetch requestTimeout r with
  | Aborted => (requestTimeout, inl AbortError)
  | Failed t => (t, inl NetworkError)
  | Resolved t rd Unparsable => ((t + rd)%N, inl SyntaxError)
  | Resolved t rd (Parsed details) =>
      match sprites details with
      | None => ((t + rd)%N, inl TypeError)
      | Some s =>
          ((t + rd)%N,
           inr {| name := name pokemon; url := url pokemon;
                  image := front_default s; isLoading := Some false |})
      end
  end.

(** The object returned by the [catch] block (lines 65-70). *)
Definition fallback (pokemon : PokemonWithImage) : PokemonWithImage :=
  {| name := name pokemon; url := url pokemon;
     image := None; isLoading := Some false |}.

(** State of a promise once it has settled. *)
Inductive settlement (A : Type) : Type :=
| Fulfilled (value : A)
| Rejected (reason : error).
Arguments Fulfilled {A} value.
Arguments Rejected {A} reason.

(** A detail promise, seen from outside: when it settles and how, whether
    the abort callback interrupted the request, and what the task wrote
    with [console.error]. *)
Record task : Type := mkTask {
  settled_at : N;
  status : settlement PokemonWithImage;
  cancelled : bool;
  diagnostics : list (string * error);
}.

(** The whole callback: [try] block, then [catch] on any exception. *)
Definition detailTask (requestTimeout : N) (pokemon : PokemonWithImage)
    (r : response Pokemon) : task :=
  match try_block requestTimeout pokemon r with
  | (t, inr item) =>
      {| settled_at := t; status := Fulfilled item;
         cancelled := false; diagnostics := [] |}
  | (t, inl err) =>
      {| settled_at := t; status := Fulfilled (fallback pokemon);
         cancelled := bool_decide (err = AbortError);
         diagnostics := [(name pokemon, err)] |}
  end.


(** ** Phase 3: the join (lines 46-80) *)

(** The network as the detail phase sees it: the answer to the [k]-th
    detail request (in dispatch order), sent to a given address. *)
Definition network : Type := nat → string → response Pokemon.

(** [randomPokemon.map(async ...)]: the callback runs once per element, in
    array order and within one synchronous turn, so every request leaves at
    the same instant and [settled_at] is counted from that instant for all
    of them. *)
Definition detailPromises (requestTimeout : N) (net : network)
    (randomPokemon : list PokemonWithImage) : list task :=
  imap (λ k pokemon, detailTask requestTimeout pokemon (net k (url pokemon)))
       randomPokemon.

(** State of [Promise.allSettled] while it waits: one result slot per input
    promise, in input order, and the clock of the event loop. *)
Record join_state : Type := mkJoin {
  slots : list (option (settlement PokemonWithImage));
  clock : N;
}.

(** The runtime delivers the settlement of the [i]-th promise: its outcome
    goes to slot [i], and the clock is then at least its settling time. *)
Definition deliver (promises : list task) (st : join_state) (i : nat) : join_state :=
  match promises !! i with
  | Some p =>
      {| slots := <[ i := Some (status p) ]> (slots st);
         clock := N.max (clock st) (settled_at p) |}
  | None => st
  end.

Definition join_start (promises : list task) : join_state :=
  {| slots := replicate (length promises) None; clock := 0 |}.

(** [await Promise.allSettled(detailPromises)] when the settlements are
    delivered in the order [order]: it resolves, with the slots and at the
    clock reached, once no slot is empty, and stays pending otherwise. *)
Definition Promise_allSettled (promises : list task) (order : list nat)
    : outcome (list (settlement PokemonWithImage) * N) :=
  let st := foldl (deliver promises) (join_start promises) order in
  match mapM id (slots st) with
  | Some rs => Returned (rs, clock st)
  | None => Pending
  end.

(** [result.status === "fulfilled"], then [.value]. *)
Definition fulfilled_value {A} (r : settlement A) : option A :=
  match r with
  | Fulfilled v => Some v
  | Rejected _ => None
  end.

(** Line 78: keep the fulfilled results and take their values. *)
Definition pokemonWithImages (rs : list (settlement PokemonWithImage))
    : list PokemonWithImage :=
  omap fulfilled_value rs.

(** Lines 46-80 as a whole, given the selected placeholders: the returned
    array and the time the phase took. *)
Definition loadDetails (requestTimeout : N) (net : network) (order : list nat)
    (randomPokemon : list PokemonWithImage) : outcome (list PokemonWithImage * N) :=
  match Promise_allSettled (detailPromises requestTimeout net randomPokemon) order with
  | Returned (rs, t) => Returned (pokemonWithImages rs, t)
  | Threw e => Threw e
  | Spinning => Spinning
  | Pending => Pending
  end.

(** Diagnostics reach the console as the tasks settle. *)
Definition console_of (promises : list task) (order : list nat) : list (string * error) :=
  i ← order; from_option diagnostics [] (promises !! i).

(** ** The routine (lines 21-81) *)

(** [FetchPokemonOptions]: both members are optional. *)
Record FetchPokemonOptions : Type := mkOptions {
  requestTimeout : option N;
  count : option Z;
}.

(** Everything the routine obtains from its environment. *)
Record world : Type := mkWorld {
  listing : response PokemonListResponse;  (* answer of the list endpoint *)
  samples : list Q;                        (* successive [Math.random()] values *)
  details : network;                       (* answers of the detail endpoints *)
  order : list nat;                        (* order in which detail promises settle *)
}.

(** What a call leaves behind: how the returned promise ends, the
    addresses passed to [fetch] in call order, the lines written with
    [console.error], and the instant the promise settled (when it did). *)
Record run : Type := mkRun {
  result : outcome (list PokemonWithImage);
  requests : list string;
  console : list (string * error);
  elapsed : option N;
}.

Definition listing_url : string := "https://pokeapi.co/api/v2/pokemon?limit=1000".

(** Line 22: the defaults of the destructured options. *)
Definition timeout_of (options : FetchPokemonOptions) : N :=
  default 10000%N (requestTimeout options).

Definition count_of (options : FetchPokemonOptions) : Z :=
  default 10%Z (count options).

(** A run that ends before any detail request is sent. *)
Definition early (r : outcome (list PokemonWithImage)) (t : option N) : run :=
  {| result := r; requests := [listing_url]; console := []; elapsed := t |}.

Definition fetchPokemonListWithDetails (options : FetchPokemonOptions) (w : world) : run :=
  let requestTimeout := timeout_of options in
  let count := count_of options in
  match listing w with
  | Silent => early Pending None
  | Rejects t => early (Threw NetworkError) (Some t)
  | Arrives t rd Unparsable => early (Threw SyntaxError) (Some (t + rd)%N)
  | Arrives t rd (Parsed data) =>
      match selectRandom data count (samples w) with
      | Returned randomPokemon =>
          let promises := detailPromises requestTimeout (details w) randomPokemon in
          let sent := listing_url :: (url <$> randomPokemon) in
          let written := console_of promises (order w) in
          match loadDetails requestTimeout (details w) (order w) randomPokemon with
          | Returned (pokemonWithImages, took) =>
              {| result := Returned pokemonWithImages; requests := sent;
                 console := written; elapsed := Some (t + rd + took)%N |}
          | Threw e =>
              {| result := Threw e; requests := sent; console := written; elapsed := None |}
          | Spinning =>
              {| result := Spinning; requests := sent; console := written; elapsed := None |}
          | Pending =>
              {| result := Pending; requests := sent; console := written; elapsed := None |}
          end
      | Threw e => early (Threw e) (Some (t + rd)%N)
      | Spinning => early Spinning None
      | Pending => early Pending None
      end
  end.

(** ** Vocabulary of the statements *)

(** Every detail promise of a batch of [n] has its settlement delivered. *)
Definition settles_all (order : list nat) (n : nat) : Prop :=
  Forall (λ i, i ∈ order) (seq 0 n).

#[global] Instance settles_all_dec order n : Decision (settles_all order n).
Proof. unfold settles_all. apply _. Defined.

(** The request is answered (response or transport error) before the
    abort timer expires. *)
Definition answered_before {A} (requestTimeout : N) (r : response A) : Prop :=
  match r with
  | Arrives t _ _ | Rejects t => (t < requestTimeout)%N
  | Silent => False
  end.

(** The retrieval raises: the [try] block is left by an exception. *)
Definition raises (requestTimeout : N) (pokemon : PokemonWithImage)
    (r : response Pokemon) (e : error) : Prop :=
  (try_block requestTimeout pokemon r).2 = inl e.

(** The ways a retrieval fails, named as the description of the routine
    names them, each with the exception it raises: the transport fails
    before the timer expires; the response arrives in time but its body is
    not JSON; it arrives in time and parses to a record without a
    [sprites] object; nothing has come back when the timer expires. *)
Inductive fails_with (requestTimeout : N) : response Pokemon → error → Prop :=
| network_failure t :
    (t < requestTimeout)%N →
    fails_with requestTimeout (Rejects t) NetworkError
| parse_error t rd :
    (t < requestTimeout)%N →
    fails_with requestTimeout (Arrives t rd Unparsable) SyntaxError
| malformed_record t rd :
    (t < requestTimeout)%N →
    fails_with requestTimeout (Arrives t rd (Parsed {| sprites := None |})) TypeError
| timed_out r :
    ¬ answered_before requestTimeout r →
    fails_with requestTimeout r AbortError.

(** The retrieval succeeds: the response arrives before the timer expires
    and its body parses to a record with a [sprites] object. *)
Definition succeeds (requestTimeout : N) (r : response Pokemon) (s : PokemonSprites) : Prop :=
  ∃ t rd, r = Arrives t rd (Parsed {| sprites := Some s |}) ∧ (t < requestTimeout)%N.

(** The item a detail task resolves to. *)
Definition enriched (requestTimeout : N) (pokemon : PokemonWithImage)
    (r : response Pokemon) : PokemonWithImage :=
  match (try_block requestTimeout pokemon r).2 with
  | inr item => item
  | inl _ => fallback pokemon
  end.

(** The reference handle of an item: its name and address. *)
Definition handle (p : PokemonWithImage) : string * string := (name p, url p).

(** The indices a list of samples draws from a listing of length [len]. *)
Definition drawn (len : nat) (samples : list Q) : list Z :=
  (λ u, randomIndex u len) <$> samples.

(** The order of a run replaced, everything else kept. *)
Definition with_order (w : world) (ord : list nat) : world :=
  {| listing := listing w; samples := samples w; details := details w; order := ord |}.

(** Number of distinct indices among those drawn. *)
Definition distinct_drawn (len : nat) (samples : list Q) : nat :=
  size (list_to_set (C := gset Z) (drawn len samples)).

(** Samples that draw every index of a listing of length [len] once: for
    [k = 0, ..., len - 1] the least multiple of [2^-53] that is at least
    [k / len]. *)
Definition spread (len : nat) : list Q :=
  (λ k, ((Z.of_nat k * 2 ^ 53 + Z.of_nat len - 1) / Z.of_nat len)%Z # (2 ^ 53)%positive)
    <$> seq 0 len.

(** [p] is the placeholder built from entry [i] of the listing. *)
Definition picked (rs : list (option PokemonListItem)) (i : Z) (p : PokemonWithImage) : Prop :=
  ∃ x, item_at rs i = Some x ∧ p = placeholder x.

(** Invariant of the selection loop: [randomPokemon] holds the placeholders
    of the entries at the indices [idxs], which are pairwise distinct and
    are exactly the members of [usedIndices]. *)
Record selection_inv (rs : list (option PokemonListItem)) (usedIndices : gset Z)
    (randomPokemon : list PokemonWithImage) (idxs : list Z) : Prop := {
  inv_nodup : NoDup idxs;
  inv_used : ∀ i, i ∈ usedIndices ↔ i ∈ idxs;
  inv_picked : Forall2 (picked rs) idxs randomPokemon;
}.

(** The settling time of the slowest promise. *)
Definition latest (promises : list task) : N :=
  foldr N.max 0%N (settled_at <$> promises).

(** The items a batch resolves to, in batch order. *)
Definition enrich_all (requestTimeout : N) (net : network)
    (randomPokemon : list PokemonWithImage) : list PokemonWithImage :=
  imap (λ k pokemon, enriched requestTimeout pokemon (net k (url pokemon))) randomPokemon.

(** ** Sample runs

    The listing of the second unit test, and the scenario of three handles
    where the first answers after 10 ms, the second fails at once and the
    third never answers, under a timeout of 50 ms. *)

Module Sample.

Definition pikachu : PokemonListItem :=
  mkListItem "pikachu" "https://pokeapi.co/api/v2/pokemon/25/".
Definition charizard : PokemonListItem :=
  mkListItem "charizard" "https://pokeapi.co/api/v2/pokemon/6/".
Definition bulbasaur : PokemonListItem :=
  mkListItem "bulbasaur" "https://pokeapi.co/api/v2/pokemon/1/".

Definition three : list (option PokemonListItem) :=
  [Some pikachu; Some charizard; Some bulbasaur].

Definition data : PokemonListResponse := {| results := Some three |}.

Definition listed : response PokemonListResponse := Arrives 20 5 (Parsed data).

Definition record (img : option string) : json_body Pokemon :=
  Parsed {| sprites := Some {| front_default := img |} |}.

(** Samples drawing the indices 0, 1, 2 of a listing of three. *)
Definition in_turn : list Q := [0; 1 # 2; 3 # 4]%Q.

(** What [in_turn] selects from [three]. *)
Definition chosen : list PokemonWithImage :=
  placeholder <$> [pikachu; charizard; bulbasaur].

Definition mixed_net : network := λ k _,
  match k with
  | 0 => Arrives 10 0 (record (Some "pikachu.png"))
  | 1 => Rejects 0
  | _ => Silent
  end.

Definition mixed : world :=
  {| listing := listed; samples := in_turn; details := mixed_net; order := [1; 0; 2] |}.

Definition opts (n : Z) : FetchPokemonOptions :=
  {| requestTimeout := Some 50%N; count := Some n |}.

(** The first request fails; the second succeeds with a record whose
    [front_default] is [null]. *)
Definition null_sprite_net : network := λ k _,
  match k with
  | 0 => Rejects 0
  | _ => Arrives 10 0 (record None)
  end.

Definition null_sprite : world :=
  {| listing := listed; samples := in_turn; details := null_sprite_net; order := [0; 1] |}.

(** Every request answers after 30 ms and its body takes 10 ms to read. *)
Definition steady_net : network := λ k _, Arrives 30 10 (record (Some "sprite.png")).

Definition steady : world :=
  {| listing := listed; samples := in_turn; details := steady_net; order := [2; 0; 1] |}.

(** The response arrives after 10 ms, well before a timer of 50 ms, but
    reading its body takes 100 ms more. *)
Definition slow_body_net : network := λ k _, Arrives 10 100 (record (Some "sprite.png")).

Definition slow_body : world :=
  {| listing := listed; samples := in_turn; details := slow_body_net; order := [0] |}.

(** A source that draws index 2 first. *)
Definition last_first : world :=
  {| listing := listed; samples := [3 # 4; 0; 1 # 2]%Q; details := steady_net;
     order := [0; 1; 2] |}.

(** What a run on [last_first] returns when one item is requested. *)
Definition last_first_out : list PokemonWithImage :=
  [ {| name := "bulbasaur"; url := li_url bulbasaur;
       image := Some "sprite.png"; isLoading := Some false |} ].

(** A source stuck on index 0, then moving to index 2. *)
Definition stuttering : list Q := [0; 0; 0; 3 # 4; 0]%Q.

(** The samples [0.5] and [0.6666666666666666].  On a listing of three the
    second product is [1.9999999999999998] before rounding and [2] after:
    the indices drawn are 1 and 2. *)
Definition rounded : list Q := [1 # 2; 6004799503160661 # 9007199254740992]%Q.

(** A listing whose first entry is [null]. *)
Definition with_null : PokemonListResponse :=
  {| results := Some [None; Some pikachu] |}.

Definition null_listed : world :=
  {| listing := Arrives 20 5 (Parsed with_null); samples := in_turn;
     details := steady_net; order := [] |}.

(** The detail endpoint answers 500 after 10 ms, with a body that parses to
    a record. *)
Definition server_error : Http.reply :=
  {| Http.code := 500; Http.arrives_after := 10; Http.read_after := 0;
     Http.payload := record (Some "pikachu.png") |}.

Definition failing_server : world :=
  {| listing := listed; samples := in_turn;
     details := λ _ _, Http.observed server_error; order := [0] |}.

End Sample.

(** ** The timing tracker ([createFetchTimingTracker], lines 87-107)

    The closure state is the array [callTimes]; [Date.now()] is read from
    the environment at each call of [recordCall]. *)

Module Tracker.

(** What [getTiming] returns; [callCount] is absent from the object
    returned for fewer than two calls. *)
Record timing : Type := mkTiming {
  isParallel : bool;
  timeDiff : Z;
  callCount : option nat;
}.

(** The state of a fresh tracker: [const callTimes: number[] = []]. *)
Definition createFetchTimingTracker : list Z := [].

(** [recordCall]: [callTimes.push(Date.now())]; the new state, and the
    new length, which is what [push] returns. *)
Definition recordCall (now : Z) (callTimes : list Z) : list Z * nat :=
  (callTimes ++ [now], S (length callTimes)).

(** [getTiming]. *)
Definition getTiming (callTimes : list Z) : timing :=
  if length callTimes <? 2 then
    {| isParallel := false; timeDiff := 0; callCount := None |}
  else
    let firstCall := default 0%Z (callTimes !! 0) in
    let lastCall := default 0%Z (callTimes !! (length callTimes - 1)) in
    let timeDiff := (lastCall - firstCall)%Z in
    {| isParallel := bool_decide (timeDiff < 100)%Z;
       timeDiff := timeDiff;
       callCount := Some (length callTimes) |}.

(** A fresh tracker after one [recordCall] per clock reading. *)
Definition recorded (readings : list Z) : list Z :=
  foldl (λ callTimes now, (recordCall now callTimes).1) createFetchTimingTracker readings.

(** The clock never goes back between two readings. *)
Definition monotone (readings : list Z) : Prop :=
  ∀ i j a b, i ≤ j → readings !! i = Some a → readings !! j = Some b → (a ≤ b)%Z.

End Tracker.

(** ** The list component ([PokemonList], components/PokemonList.tsx)

    The element tree it returns, restricted to what depends on the props:
    the button of the header, and the body (loading text, error text, or
    the grid of cards). *)

Module Components.

(** One child of the grid. *)
Inductive cell : Type :=
| SkeletonCard (key : string)
| PokemonCard (key : string) (selected : bool) (src alt : string) (label : string)
              (onClick : string).   (* the address handed to [onSelect] *)

Inductive body : Type :=
| LoadingText
| ErrorText (message : string)
| Grid (cells : list cell).

Record view : Type := mkView {
  button : string;          (* text of the button *)
  button_disabled : bool;
  content : body;
}.

(** Truthiness of a [string | null] value: neither [null] nor empty. *)
Definition truthy (s : option string) : option string :=
  match s with
  | Some v => if decide (v = "") then None else Some v
  | None => None
  end.

Definition placeholder_src : string := "https://via.placeholder.com/96?text=?".

(** [isSelected]: [poke.url === selectedPokemon?.species?.url]; the
    argument is that optional chain's value. *)
Definition isSelected (selectedSpeciesUrl : option string) (poke : PokemonWithImage) : bool :=
  bool_decide (Some (url poke) = selectedSpeciesUrl).

(** The callback of [pokemon.map] (lines 140-156). *)
Definition card (selectedSpeciesUrl : option string) (poke : PokemonWithImage) : cell :=
  if bool_decide (isLoading poke = Some true) then SkeletonCard (name poke)
  else
    match truthy (image poke) with
    | Some img =>
        PokemonCard (name poke) (isSelected selectedSpeciesUrl poke) img
          (name poke +:+ " sprite") (name poke) (url poke)
    | None =>
        PokemonCard (name poke) (isSelected selectedSpeciesUrl poke) placeholder_src
          "Pokemon sprite unavailable" (name poke) (url poke)
    end.

Definition PokemonList (pokemon : list PokemonWithImage) (loading : bool)
    (error : option string) (selectedSpeciesUrl : option string) : view :=
  if loading then
    {| button := "Refresh"; button_disabled := true; content := LoadingText |}
  else
    match truthy error with
    | Some message =>
        {| button := "Retry"; button_disabled := false; content := ErrorText message |}
    | None =>
        {| button := "Refresh"; button_disabled := false;
           content := Grid (card selectedSpeciesUrl <$> pokemon) |}
    end.

Definition is_skeleton (c : cell) : bool :=
  match c with SkeletonCard _ => true | PokemonCard _ _ _ _ _ _ => false end.

End Components.

(** ** The application component ([App], App.tsx)

    React state is threaded explicitly.  An asynchronous handler is given
    by the states it commits, in order: one per synchronous stretch that
    calls setters, the last one being its final state when it runs to its
    end. *)

Module App.

(** [FlavorTextEntry], restricted to the members read. *)
Record FlavorTextEntry : Type := mkEntry {
  flavor_text : string;
  language_name : string;       (* [language.name] *)
}.

(** A parsed JSON object as [fetchPokemonDetails] reads it: of whatever an
    endpoint returns, only [species.url] (read from the first response) and
    [flavor_text_entries] (read from the second) matter; either may be
    absent. *)
Record document : Type := mkDocument {
  species_url : option string;
  flavor_text_entries : option (list FlavorTextEntry);
}.

(** [PokemonWithDescription]: [{ ...data, description }]. *)
Record PokemonWithDescription : Type := mkDescribed {
  data : document;
  description : string;
}.

(** The six [useState] cells. *)
Record state : Type := mkState {
  pokemonList : list PokemonWithImage;
  selectedPokemon : option PokemonWithDescription;
  loading : bool;
  detailsLoading : bool;
  error : option string;
  detailsError : option string;
}.

(** The initial values given to [useState]. *)
Definition initial : state :=
  {| pokemonList := []; selectedPokemon := None; loading := false;
     detailsLoading := false; error := None; detailsError := None |}.

Definition setPokemonList (v : list PokemonWithImage) (s : state) : state :=
  {| pokemonList := v; selectedPokemon := selectedPokemon s; loading := loading s;
     detailsLoading := detailsLoading s; error := error s; detailsError := detailsError s |}.
Definition setSelectedPokemon (v : option PokemonWithDescription) (s : state) : state :=
  {| pokemonList := pokemonList s; selectedPokemon := v; loading := loading s;
     detailsLoading := detailsLoading s; error := error s; detailsError := detailsError s |}.
Definition setLoading (v : bool) (s : state) : state :=
  {| pokemonList := pokemonList s; selectedPokemon := selectedPokemon s; loading := v;
     detailsLoading := detailsLoading s; error := error s; detailsError := detailsError s |}.
Definition setDetailsLoading (v : bool) (s : state) : state :=
  {| pokemonList := pokemonList s; selectedPokemon := selectedPokemon s; loading := loading s;
     detailsLoading := v; error := error s; detailsError := detailsError s |}.
Definition setError (v : option string) (s : state) : state :=
  {| pokemonList := pokemonList s; selectedPokemon := selectedPokemon s; loading := loading s;
     detailsLoading := detailsLoading s; error := v; detailsError := detailsError s |}.
Definition setDetailsError (v : option string) (s : state) : state :=
  {| pokemonList := pokemonList s; selectedPokemon := selectedPokemon s; loading := loading s;
     detailsLoading := detailsLoading s; error := error s; detailsError := v |}.

(** What a handler leaves behind: the states it committed, in order; the
    addresses it passed to [fetch]; whether it ran to its end. *)
Record activity : Type := mkActivity {
  shown : list state;
  requested : list string;
  finished : bool;
}.

(** The state on screen once nothing more changes. *)
Definition final (a : activity) (s0 : state) : state := default s0 (last (shown a)).

(** *** [fetchPokemonList] (lines 304-379 of the file) *)

(** The [catch] block. *)
Definition list_failed (s : state) : state :=
  setLoading false (setError (Some "Failed to load Pokemon list") s).

Definition fetchPokemonList (requestTimeout : N) (w : world) (s0 : state) : activity :=
  let s1 := setError None (setLoading true s0) in
  match listing w with
  | Silent => {| shown := [s1]; requested := [listing_url]; finished := false |}
  | Rejects _ | Arrives _ _ Unparsable =>
      {| shown := [s1; list_failed s1]; requested := [listing_url]; finished := true |}
  | Arrives _ _ (Parsed data) =>
      match selectRandom data 10 (samples w) with
      | Returned randomPokemon =>
          let s2 := setLoading false (setPokemonList randomPokemon s1) in
          let sent := listing_url :: (url <$> randomPokemon) in
          match loadDetails requestTimeout (details w) (order w) randomPokemon with
          | Returned (pokemonWithImages, _) =>
              {| shown := [s1; s2; setPokemonList pokemonWithImages s2];
                 requested := sent; finished := true |}
          | Threw _ =>
              {| shown := [s1; s2; list_failed s2]; requested := sent; finished := true |}
          | Spinning | Pending =>
              {| shown := [s1; s2]; requested := sent; finished := false |}
          end
      | Threw _ =>
          {| shown := [s1; list_failed s1]; requested := [listing_url]; finished := true |}
      | Spinning | Pending =>
          {| shown := [s1]; requested := [listing_url]; finished := false |}
      end
  end.

(** *** [fetchPokemonDetails] (lines 385-410) *)

Definition form_feed : Ascii.ascii := Ascii.ascii_of_nat 12.
Definition space : Ascii.ascii := Ascii.ascii_of_nat 32.

(** [description.replace(/\f/g, " ")]. *)
Fixpoint clean (s : string) : string :=
  match s with
  | EmptyString => EmptyString
  | String c s' => String (if decide (c = form_feed) then space else c) (clean s')
  end.

Definition no_description : string := "No description available".

(** [englishEntry?.flavor_text || entries[0]?.flavor_text || "No
    description available"]: an absent entry and an empty text are both
    falsy. *)
Definition describe (entries : list FlavorTextEntry) : string :=
  let englishEntry := List.find (λ entry, bool_decide (language_name entry = "en")) entries in
  match Components.truthy (flavor_text <$> englishEntry) with
  | Some text => text
  | None =>
      match Components.truthy (flavor_text <$> entries !! 0) with
      | Some text => text
      | None => no_description
      end
  end.

(** The answers to the requests of one call, the [k]-th being sent to a
    given address. *)
Definition documents : Type := nat → string → response document.

(** The [catch] block followed by the [finally] block. *)
Definition details_failed (url : string) (s : state) : state :=
  setDetailsLoading false
    (setDetailsError (Some ("Failed to load Pokemon details from " +:+ url)) s).

Definition fetchPokemonDetails (url : string) (net : documents) (s0 : state) : activity :=
  let s1 := setDetailsError None (setDetailsLoading true s0) in
  match net 0 url with
  | Silent => {| shown := [s1]; requested := [url]; finished := false |}
  | Rejects _ | Arrives _ _ Unparsable =>
      {| shown := [s1; details_failed url s1]; requested := [url]; finished := true |}
  | Arrives _ _ (Parsed data) =>
      match species_url data with
      | None =>
          {| shown := [s1; details_failed url s1]; requested := [url]; finished := true |}
      | Some speciesUrl =>
          match net 1 speciesUrl with
          | Silent =>
              {| shown := [s1]; requested := [url; speciesUrl]; finished := false |}
          | Rejects _ | Arrives _ _ Unparsable =>
              {| shown := [s1; details_failed url s1];
                 requested := [url; speciesUrl]; finished := true |}
          | Arrives _ _ (Parsed speciesData) =>
              match flavor_text_entries speciesData with
              | None =>
                  {| shown := [s1; details_failed url s1];
                     requested := [url; speciesUrl]; finished := true |}
              | Some entries =>
                  let selected :=
                    {| data := data; description := clean (describe entries) |} in
                  {| shown := [s1;
                               setDetailsLoading false
                                 (setSelectedPokemon (Some selected) s1)];
                     requested := [url; speciesUrl]; finished := true |}
              end
          end
      end
  end.

(** *** The handlers given to the children *)

(** [handleRefresh]. *)
Definition handleRefresh (requestTimeout : N) (w : world) (s0 : state) : activity :=
  fetchPokemonList requestTimeout w (setDetailsError None (setSelectedPokemon None s0)).

(** [onRetry]: [selectedPokemon && fetchPokemonDetails(selectedPokemon.species.url)];
    [None] when reading [species.url] throws inside the handler. *)
Definition onRetry (net : documents) (s0 : state) : option activity :=
  match selectedPokemon s0 with
  | None => Some {| shown := []; requested := []; finished := true |}
  | Some selected =>
      match species_url (data selected) with
      | Some speciesUrl => Some (fetchPokemonDetails speciesUrl net s0)
      | None => None
      end
  end.

(** The options under which the utility [fetchPokemonListWithDetails] is
    given the timeout of the component and its fixed count of ten. *)
Definition as_options (timeout : N) : FetchPokemonOptions :=
  {| requestTimeout := Some timeout; count := Some 10%Z |}.

(** The props [App] passes to [PokemonList]. *)
Definition list_view (s : state) : Components.view :=
  Components.PokemonList (pokemonList s) (loading s) (error s)
    (selected ← selectedPokemon s; species_url (data selected)).

End App.

(** ** Further sample data *)

Module Scenario.

(** Three calls recorded within 50 ms. *)
Definition burst : list Z := [1000; 1004; 1050]%Z.

(** The list endpoint answers with an empty [results] array. *)
Definition nothing_listed : world :=
  {| listing := Arrives 20 5 (Parsed {| results := Some [] |});
     samples := Sample.in_turn; details := Sample.steady_net; order := [] |}.

(** Flavor text entries of a species. *)
Definition japanese : App.FlavorTextEntry :=
  {| App.flavor_text := "denki nezumi"; App.language_name := "ja" |}.
Definition english : App.FlavorTextEntry :=
  {| App.flavor_text := "It stores electricity in its cheeks.";
     App.language_name := "en" |}.
Definition english_later : App.FlavorTextEntry :=
  {| App.flavor_text := "It raises its tail to check its surroundings.";
     App.language_name := "en" |}.

(** A listing of ten entries, and samples that draw each of them once. *)
Definition ten_items : list PokemonListItem :=
  (λ d, mkListItem ("pokemon-" +:+ d) ("https://pokeapi.co/api/v2/pokemon/" +:+ d +:+ "/"))
    <$> ["0"; "1"; "2"; "3"; "4"; "5"; "6"; "7"; "8"; "9"].

Definition ten : list (option PokemonListItem) := Some <$> ten_items.

Definition ten_listed : world :=
  {| listing := Arrives 20 5 (Parsed {| results := Some ten |});
     samples := spread 10; details := Sample.steady_net; order := seq 0 10 |}.

Definition ten_chosen : list PokemonWithImage := placeholder <$> ten_items.

(** The same listing when every detail request fails at once. *)
Definition ten_failing : world :=
  {| listing := Arrives 20 5 (Parsed {| results := Some ten |});
     samples := spread 10; details := λ _ _, Rejects 0; order := seq 0 10 |}.

Definition pikachu_species : string := "https://pokeapi.co/api/v2/pokemon-species/25/".

(** What the detail endpoint returns for pikachu, as the details handler
    reads it. *)
Definition pikachu_record : App.document :=
  {| App.species_url := Some pikachu_species; App.flavor_text_entries := None |}.

(** What the species endpoint returns. *)
Definition pikachu_species_record : App.document :=
  {| App.species_url := None; App.flavor_text_entries := Some [japanese; english] |}.

(** Two endpoints that answer; every other address yields a body that is
    not JSON. *)
Definition pokeapi : App.documents := λ _ address,
  if decide (address = li_url Sample.pikachu) then Arrives 30 5 (Parsed pikachu_record)
  else if decide (address = pikachu_species) then Arrives 30 5 (Parsed pikachu_species_record)
  else Arrives 30 5 Unparsable.

(** The application once a list has been loaded. *)
Definition listed_state : App.state :=
  App.setPokemonList
    [ {| name := "pikachu"; url := li_url Sample.pikachu;
         image := Some "pikachu.png"; isLoading := Some false |};
      fallback (placeholder Sample.charizard) ]
    App.initial.

End Scenario.

(** * Properties *)

(** ** The random index *)

(** *** Rounding to 53 bits *)

Lemma round53_small n : (n < 2 ^ 53)%Z → round53 n = n.
Proof.
  intros Hn. unfold round53.
  destruct (Z.leb_spec (Z.log2 n + 1) 53) as [_ | Hbits]; [done |].
  exfalso. destruct (Z.le_gt_cases n 0) as [Hle | Hpos].
  - rewrite Z.log2_nonpos in Hbits by done. lia.
  - assert (Z.log2 n < 53)%Z by (apply Z.log2_lt_pow2; lia). lia.
Qed.

(** The shape of a rounded value: a multiple of [2^s] next to [n]. *)
Lemma round53_spec n :
  (2 ^ 53 ≤ n)%Z →
  ∃ s q', (0 < s)%Z ∧ s = (Z.log2 n - 52)%Z ∧ round53 n = (q' * 2 ^ s)%Z ∧
    ((n / 2 ^ s) * 2 ^ s ≤ q' * 2 ^ s)%Z ∧
    (q' * 2 ^ s - n ≤ 2 ^ (s - 1))%Z.
Proof.
  intros Hn. unfold round53.
  assert (53 ≤ Z.log2 n)%Z as Hlog by (apply Z.log2_le_pow2; lia).
  destruct (Z.leb_spec (Z.log2 n + 1) 53) as [Hbits | _]; [lia |].
  set (s := (Z.log2 n + 1 - 53)%Z). assert (0 < s)%Z as Hs by lia.
  exists s. rewrite Z.shiftr_div_pow2, !Z.shiftl_mul_pow2 by lia.
  set (q := (n / 2 ^ s)%Z). rewrite Z.mul_1_l.
  assert (0 < 2 ^ s)%Z as Hpow by (apply Z.pow_pos_nonneg; lia).
  assert (2 ^ s = 2 * 2 ^ (s - 1))%Z as Hhalf.
  { rewrite <- Z.pow_succ_r by lia. f_equal. lia. }
  pose proof (Z.div_mod n (2 ^ s) ltac:(lia)) as Hdm. fold q in Hdm.
  pose proof (Z.mod_pos_bound n (2 ^ s) Hpow) as Hmod.
  replace (q * 2 ^ s)%Z with (2 ^ s * q)%Z in * by lia.
  set (r := (n - 2 ^ s * q)%Z) in *. assert (r = n mod 2 ^ s)%Z as Hr by (unfold r; lia).
  destruct ((2 ^ (s - 1) <? r)%Z || ((r =? 2 ^ (s - 1))%Z && Z.odd q))%bool eqn:Hup.
  - exists (q + 1)%Z. split_and!; [done | lia | done | nia |].
    apply orb_true_iff in Hup as [Hgt%Z.ltb_lt | [Heq%Z.eqb_eq _]%andb_true_iff]; nia.
  - exists q. split_and!; [done | lia | done | nia | ].
    assert (0 ≤ 2 ^ (s - 1))%Z by (apply Z.pow_nonneg; lia). nia.
Qed.

Lemma round53_nonneg n : (0 ≤ n)%Z → (0 ≤ round53 n)%Z.
Proof.
  intros Hn. destruct (Z.lt_ge_cases n (2 ^ 53)) as [Hsmall | Hbig].
  - by rewrite round53_small.
  - destruct (round53_spec n Hbig) as (s & q' & Hs & _ & -> & Hlow & _).
    assert (0 ≤ n / 2 ^ s)%Z by (apply Z.div_pos; [lia | apply Z.pow_pos_nonneg; lia]).
    assert (0 < 2 ^ s)%Z by (apply Z.pow_pos_nonneg; lia). nia.
Qed.

(** Rounding up adds at most [n / 2^53]. *)
Lemma round53_upper n : (0 ≤ n)%Z → (2 ^ 53 * (round53 n - n) ≤ n)%Z.
Proof.
  intros Hn. destruct (Z.lt_ge_cases n (2 ^ 53)) as [Hsmall | Hbig].
  - rewrite round53_small by done. lia.
  - destruct (round53_spec n Hbig) as (s & q' & Hs & Hdef & -> & _ & Hup).
    assert (2 ^ 53 * 2 ^ (s - 1) = 2 ^ Z.log2 n)%Z as Hpow.
    { rewrite <- Z.pow_add_r by lia. f_equal. lia. }
    pose proof (Z.log2_spec n ltac:(lia)) as [Hlo _]. nia.
Qed.

(** Rounding never goes below a multiple of [2^53] that is below [n]. *)
Lemma round53_lower n c :
  (0 ≤ c)%Z → (c * 2 ^ 53 ≤ n)%Z → (n < 2 ^ 106)%Z → (c * 2 ^ 53 ≤ round53 n)%Z.
Proof.
  intros Hc Hle Hn. destruct (Z.lt_ge_cases n (2 ^ 53)) as [Hsmall | Hbig].
  - by rewrite round53_small.
  - destruct (round53_spec n Hbig) as (s & q' & Hs & Hdef & -> & Hlow & _).
    assert (Z.log2 n < 106)%Z by (apply Z.log2_lt_pow2; lia).
    assert (2 ^ 53 = 2 ^ (53 - s) * 2 ^ s)%Z as Hsplit.
    { rewrite <- Z.pow_add_r by lia. f_equal. lia. }
    assert (0 < 2 ^ s)%Z by (apply Z.pow_pos_nonneg; lia).
    etransitivity; [| exact Hlow].
    rewrite Hsplit, Z.mul_assoc.
    apply Z.mul_le_mono_nonneg_r; [lia |].
    apply Z.div_le_lower_bound; [lia |]. rewrite Hsplit in Hle. lia.
Qed.

(** The rounded product of the sample [0.6666666666666666] and the length
    3 is exactly 2: the drawn index is 2, where the exact product
    [1.9999999999999998] would give 1. *)
Lemma randomIndex_rounds_up : randomIndex (6004799503160661 # 2 ^ 53) 3 = 2%Z.
Proof. vm_compute. reflexivity. Qed.

(** *** The drawn index *)

(** The rounded product stays below the length: the index is in range. *)
Lemma randomIndex_range u len :
  double_sample u → 0 < len → (0 ≤ randomIndex u len < Z.of_nat len)%Z.
Proof.
  intros (_ & _ & Hm & Hme) Hlen. unfold randomIndex.
  set (N := (Qnum u * Z.of_nat len)%Z).
  assert (0 ≤ N)%Z as HN by (unfold N; nia).
  pose proof (round53_nonneg N HN) as Hlo. pose proof (round53_upper N HN) as Hup.
  split; [by apply Z.div_pos |].
  apply Z.div_lt_upper_bound; [done |]. unfold N in *. nia.
Qed.

Lemma randomIndex_empty u : randomIndex u 0 = 0%Z.
Proof.
  unfold randomIndex. change (Z.of_nat 0) with 0%Z. rewrite Z.mul_0_r.
  by rewrite round53_small.
Qed.

Lemma spread_numerator k len :
  k < len → (Z.of_nat len < 2 ^ 32)%Z →
  let c := ((Z.of_nat k * 2 ^ 53 + Z.of_nat len - 1) / Z.of_nat len)%Z in
  (Z.of_nat k * 2 ^ 53 ≤ c * Z.of_nat len < Z.of_nat k * 2 ^ 53 + Z.of_nat len)%Z.
Proof.
  intros Hk Hlen c.
  pose proof (Z.div_mod (Z.of_nat k * 2 ^ 53 + Z.of_nat len - 1) (Z.of_nat len) ltac:(lia)) as Hdm.
  pose proof (Z.mod_pos_bound (Z.of_nat k * 2 ^ 53 + Z.of_nat len - 1) (Z.of_nat len) ltac:(lia)).
  fold c in Hdm. lia.
Qed.

Lemma randomIndex_spread k len :
  k < len → (Z.of_nat len < 2 ^ 32)%Z →
  randomIndex (((Z.of_nat k * 2 ^ 53 + Z.of_nat len - 1) / Z.of_nat len)%Z # (2 ^ 53)%positive) len
  = Z.of_nat k.
Proof.
  intros Hk Hlen. pose proof (spread_numerator k len Hk Hlen) as Hc. cbv zeta in Hc.
  unfold randomIndex. cbn [Qnum Qden].
  set (N := (_ / _ * Z.of_nat len)%Z) in *.
  change (Z.pos (2 ^ 53)) with (2 ^ 53)%Z.
  assert (0 ≤ N)%Z as HN by lia.
  pose proof (round53_upper N HN) as Hup.
  pose proof (round53_lower N (Z.of_nat k) ltac:(lia) ltac:(lia) ltac:(nia)) as Hlo.
  symmetry. apply Z.div_unique with (r := (round53 N - Z.of_nat k * 2 ^ 53)%Z); lia.
Qed.

Lemma double_sample_spread k len :
  k < len → (Z.of_nat len < 2 ^ 32)%Z →
  double_sample (((Z.of_nat k * 2 ^ 53 + Z.of_nat len - 1) / Z.of_nat len)%Z # (2 ^ 53)%positive).
Proof.
  intros Hk Hlen. pose proof (spread_numerator k len Hk Hlen) as Hc. cbv zeta in Hc.
  unfold double_sample. cbn [Qnum Qden]. change (Z.pos (2 ^ 53)) with (2 ^ 53)%Z.
  change (Z.log2 (2 ^ 53)) with 53%Z.
  set (c := (_ / _)%Z) in *.
  split_and!; [done | lia | apply Z.div_pos; lia | nia | nia].
Qed.

Lemma spread_double len : (Z.of_nat len < 2 ^ 32)%Z → Forall double_sample (spread len).
Proof.
  intros Hlen. apply Forall_fmap, Forall_forall. intros k [_ Hk]%elem_of_seq.
  by apply double_sample_spread.
Qed.

Lemma drawn_spread len :
  (Z.of_nat len < 2 ^ 32)%Z → drawn len (spread len) = Z.of_nat <$> seq 0 len.
Proof.
  intros Hlen. unfold drawn, spread. rewrite <- list_fmap_compose.
  apply Forall_fmap_ext, Forall_forall. intros k [_ Hk]%elem_of_seq.
  by apply randomIndex_spread.
Qed.

Lemma distinct_drawn_spread len :
  (Z.of_nat len < 2 ^ 32)%Z → distinct_drawn len (spread len) = len.
Proof.
  intros Hlen. unfold distinct_drawn. rewrite drawn_spread by done.
  rewrite size_list_to_set.
  - by rewrite length_fmap, length_seq.
  - apply NoDup_fmap; [apply _ | apply NoDup_seq].
Qed.

Lemma distinct_drawn_app len before after :
  distinct_drawn len after ≤ distinct_drawn len (before ++ after).
Proof.
  unfold distinct_drawn, drawn. rewrite fmap_app, list_to_set_app_L.
  apply subseteq_size, union_subseteq_r.
Qed.

Lemma item_at_Some rs i x :
  item_at rs i = Some x →
  (0 ≤ i < Z.of_nat (length rs))%Z ∧ rs !! Z.to_nat i = Some (Some x).
Proof.
  unfold item_at. destruct (Z.ltb_spec i 0); [done |].
  destruct (rs !! Z.to_nat i) as [[y |] |] eqn:Hy; simpl; [| done ..].
  intros [= ->]. split; [| done]. apply lookup_lt_Some in Hy. lia.
Qed.

(** Where no entry is [null], every index in range reads an object. *)
Lemma item_at_in_range rs i :
  Forall is_Some rs → (0 ≤ i < Z.of_nat (length rs))%Z → is_Some (item_at rs i).
Proof.
  intros Hrs Hi. unfold item_at. destruct (Z.ltb_spec i 0); [lia |].
  destruct (lookup_lt_is_Some_2 rs (Z.to_nat i)) as [y Hy]; [lia |].
  rewrite Hy. simpl. by eapply Forall_lookup_1 in Hrs.
Qed.

(** A [null] entry, or an index outside the array, has no [name] to read. *)
Lemma item_at_None rs i :
  (0 ≤ i)%Z → item_at rs i = None → rs !! Z.to_nat i = None ∨ rs !! Z.to_nat i = Some None.
Proof.
  unfold item_at. intros Hi. destruct (Z.ltb_spec i 0); [lia |].
  destruct (rs !! Z.to_nat i) as [[y |] |]; simpl; [done | by right | by left].
Qed.

(** ** The selection loop *)

Lemma selection_inv_init rs : selection_inv rs ∅ [] [].
Proof. split; [constructor | set_solver | constructor]. Qed.

Lemma selection_inv_step rs used rp idxs i x :
  selection_inv rs used rp idxs → i ∉ used → item_at rs i = Some x →
  selection_inv rs ({[ i ]} ∪ used) (rp ++ [placeholder x]) (idxs ++ [i]).
Proof.
  intros [Hnd Hu Hp] Hi Hx. split.
  - apply NoDup_app. split_and!; [done | | apply NoDup_singleton].
    intros j Hj ->%list_elem_of_singleton. by apply Hi, Hu.
  - intros j. rewrite elem_of_union, elem_of_singleton, elem_of_app, list_elem_of_singleton, Hu.
    tauto.
  - apply Forall2_app; [done |]. constructor; [| constructor]. by exists x.
Qed.

Lemma selection_inv_bound rs used rp idxs :
  selection_inv rs used rp idxs → length rp ≤ length rs.
Proof.
  intros [Hnd _ Hp]. rewrite <- (Forall2_length _ _ _ Hp).
  transitivity (length (Z.of_nat <$> seq 0 (length rs)));
    [| by rewrite length_fmap, length_seq].
  apply submseteq_length, NoDup_submseteq; [done |].
  intros i Hi. apply list_elem_of_lookup in Hi as [k Hk].
  destruct (Forall2_lookup_l _ _ _ _ _ Hp Hk) as (p & _ & x & Hx & _).
  apply item_at_Some in Hx as [Hr _].
  apply list_elem_of_fmap. exists (Z.to_nat i). split; [lia |].
  apply elem_of_seq. lia.
Qed.

Lemma selection_inv_size rs used rp idxs :
  selection_inv rs used rp idxs → size used = length rp.
Proof.
  intros [Hnd Hu Hp]. rewrite <- (Forall2_length _ _ _ Hp).
  rewrite <- (size_list_to_set (C := gset Z)) by done.
  f_equal. apply set_eq. intros i. by rewrite elem_of_list_to_set.
Qed.

Section Loop.
Context (data : PokemonListResponse) (rs : list (option PokemonListItem)) (n : Z).
Hypothesis Hdata : results data = Some rs.

Lemma select_loop_done samples used rp :
  (n ≤ Z.of_nat (length rp))%Z → select_loop data n samples used rp = Returned rp.
Proof.
  intros Hn. destruct samples; simpl; by destruct (Z.ltb_spec (Z.of_nat (length rp)) n); [lia |].
Qed.

Lemma select_loop_returned samples : ∀ used rp idxs sel,
  selection_inv rs used rp idxs →
  select_loop data n samples used rp = Returned sel →
  ∃ used' idxs', selection_inv rs used' sel idxs' ∧
    (n ≤ Z.of_nat (length sel) ≤ Z.max (Z.of_nat (length rp)) n)%Z.
Proof.
  induction samples as [| u samples IH]; intros used rp idxs sel Hinv; simpl;
    destruct (Z.ltb_spec (Z.of_nat (length rp)) n) as [Hlt | Hge];
    try (intros [= <-]; exists used, idxs; split; [done | lia]); [done |].
  rewrite Hdata. case_bool_decide as Hused.
  - by apply (IH _ _ idxs).
  - destruct (item_at rs _) as [x |] eqn:Hx; [| done].
    intros Hsel. eapply IH in Hsel as (used' & idxs' & Hinv' & Hlen);
      [| by eapply selection_inv_step].
    exists used', idxs'. split; [done |]. rewrite length_app in Hlen. simpl in Hlen. lia.
Qed.

Lemma select_loop_never_returns samples : ∀ used rp idxs,
  selection_inv rs used rp idxs →
  (Z.of_nat (length rs) < n)%Z →
  ∀ sel, select_loop data n samples used rp ≠ Returned sel.
Proof.
  intros used rp idxs Hinv Hn sel Hsel.
  eapply select_loop_returned in Hsel as (used' & idxs' & Hinv' & Hlen); [| done].
  apply selection_inv_bound in Hinv'. lia.
Qed.

Lemma select_loop_spins samples : ∀ used rp idxs,
  selection_inv rs used rp idxs →
  Forall is_Some rs →
  Forall double_sample samples →
  0 < length rs →
  (Z.of_nat (length rs) < n)%Z →
  select_loop data n samples used rp = Spinning.
Proof.
  induction samples as [| u samples IH]; intros used rp idxs Hinv Hrs Hunit Hpos Hn;
    pose proof (selection_inv_bound _ _ _ _ Hinv); simpl;
    (destruct (Z.ltb_spec (Z.of_nat (length rp)) n); [| lia]); [done |].
  rewrite Hdata. apply Forall_cons in Hunit as [Hu Hunit].
  case_bool_decide as Hused; [by eapply IH |].
  destruct (item_at_in_range rs (randomIndex u (length rs))) as [x Hx];
    [done | by apply randomIndex_range |].
  rewrite Hx. eapply IH; [by eapply selection_inv_step | done ..].
Qed.

Lemma select_loop_returns_iff samples : ∀ used rp idxs,
  selection_inv rs used rp idxs →
  Forall is_Some rs →
  Forall double_sample samples →
  (n ≤ Z.of_nat (length rs))%Z →
  (∃ sel, select_loop data n samples used rp = Returned sel)
  ↔ (n ≤ Z.of_nat (size (used ∪ list_to_set (drawn (length rs) samples))))%Z.
Proof.
  induction samples as [| u samples IH]; intros used rp idxs Hinv Hrs Hunit Hn;
    pose proof (selection_inv_size _ _ _ _ Hinv) as Hsize.
  - unfold drawn. rewrite fmap_nil, list_to_set_nil, (right_id_L ∅ (∪)), Hsize. simpl.
    destruct (Z.ltb_spec (Z.of_nat (length rp)) n); split; try lia; try done; eauto.
    by intros [? ?].
  - destruct (Z.le_gt_cases n (Z.of_nat (length rp))) as [Hge | Hlt].
    { split; [intros _ | intros _; exists rp; by apply select_loop_done].
      etransitivity; [exact Hge |]. rewrite <- Hsize.
      apply inj_le, subseteq_size, union_subseteq_l. }
    apply Forall_cons in Hunit as [Hu Hunit].
    unfold drawn. rewrite fmap_cons, list_to_set_cons. fold (drawn (length rs) samples).
    simpl. destruct (Z.ltb_spec (Z.of_nat (length rp)) n); [| lia].
    rewrite Hdata. case_bool_decide as Hused.
    + rewrite (IH used rp idxs) by done.
      rewrite (assoc_L (∪)), (comm_L (∪) used {[randomIndex u (length rs)]}),
        (subseteq_union_1_L {[randomIndex u (length rs)]} used);
        [done | by apply singleton_subseteq_l].
    + assert (0 < length rs) as Hpos by lia.
      destruct (item_at_in_range rs (randomIndex u (length rs))) as [x Hx];
        [done | by apply randomIndex_range |].
      rewrite Hx. rewrite (IH _ _ _ (selection_inv_step _ _ _ _ _ _ Hinv Hused Hx)) by done.
      by rewrite (assoc_L (∪) used), (comm_L (∪) used).
Qed.

Lemma selectRandom_returns_iff samples :
  Forall is_Some rs →
  Forall double_sample samples →
  (n ≤ Z.of_nat (length rs))%Z →
  (∃ sel, selectRandom data n samples = Returned sel)
  ↔ (n ≤ Z.of_nat (distinct_drawn (length rs) samples))%Z.
Proof.
  intros Hrs Hunit Hn. unfold selectRandom, distinct_drawn.
  rewrite (select_loop_returns_iff samples ∅ [] [] (selection_inv_init rs) Hrs Hunit Hn).
  by rewrite (left_id_L ∅ (∪)).
Qed.

Lemma selectRandom_returned samples sel :
  selectRandom data n samples = Returned sel →
  Z.of_nat (length sel) = Z.max 0 n ∧
  ∃ idxs, NoDup idxs ∧ Forall2 (picked rs) idxs sel.
Proof.
  intros Hsel.
  destruct (select_loop_returned samples ∅ [] [] sel (selection_inv_init rs) Hsel)
    as (used' & idxs' & [Hnd _ Hp] & Hlen).
  simpl in Hlen. split; [lia |]. by exists idxs'.
Qed.

(** A source that keeps drawing an index already used makes no progress. *)
Lemma select_loop_stuck u k used rp :
  randomIndex u (length rs) ∈ used →
  (Z.of_nat (length rp) < n)%Z →
  select_loop data n (replicate k u) used rp = Spinning.
Proof.
  intros Hu Hn. induction k as [| k IH]; cbn [replicate select_loop];
    (destruct (Z.ltb_spec (Z.of_nat (length rp)) n); [| lia]); [done |].
  rewrite Hdata. by rewrite bool_decide_eq_true_2.
Qed.

End Loop.

Lemma selectRandom_no_results data n samples sel :
  results data = None → selectRandom data n samples = Returned sel → sel = [].
Proof.
  intros Hdata. unfold selectRandom.
  destruct samples; cbn [select_loop]; destruct (_ <? _)%Z; rewrite ?Hdata; congruence.
Qed.

Lemma selectRandom_zero data n samples :
  (n ≤ 0)%Z → selectRandom data n samples = Returned [].
Proof. intros Hn. by apply select_loop_done. Qed.

(** On an empty listing the first iteration reads [data.results[0]], which
    is [undefined], and the access to its [name] throws. *)
Lemma selectRandom_empty_listing data n u samples :
  results data = Some [] → (0 < n)%Z →
  selectRandom data n (u :: samples) = Threw TypeError.
Proof.
  intros Hdata Hn. unfold selectRandom. cbn [select_loop length].
  destruct (Z.ltb_spec (Z.of_nat 0) n); [| lia].
  rewrite Hdata. cbn [length]. by rewrite randomIndex_empty.
Qed.

(** ** The join *)

Section Join.
Context (promises : list task).

Lemma deliver_length st i :
  length (slots (deliver promises st i)) = length (slots st).
Proof. unfold deliver. destruct (promises !! i); simpl; [apply length_insert | done]. Qed.

Lemma deliver_all_length ord : ∀ st,
  length (slots (foldl (deliver promises) st ord)) = length (slots st).
Proof.
  induction ord as [| j ord IH]; intros st; simpl; [done |].
  by rewrite IH, deliver_length.
Qed.

Lemma deliver_all_lookup ord : ∀ st i p,
  length (slots st) = length promises →
  promises !! i = Some p →
  slots (foldl (deliver promises) st ord) !! i
  = if bool_decide (i ∈ ord) then Some (Some (status p)) else slots st !! i.
Proof.
  induction ord as [| j ord IH]; intros st i p Hlen Hp.
  { by rewrite bool_decide_eq_false_2 by apply not_elem_of_nil. }
  cbn [foldl]. rewrite (IH _ i p); [| by rewrite deliver_length | done].
  case_bool_decide as Hin.
  { by rewrite bool_decide_eq_true_2 by (by right). }
  unfold deliver. destruct (decide (i = j)) as [<- | Hne].
  - rewrite Hp. simpl. rewrite bool_decide_eq_true_2 by left.
    apply list_lookup_insert_eq. rewrite Hlen. by eapply lookup_lt_Some.
  - rewrite bool_decide_eq_false_2 by (by intros [? | ?]%elem_of_cons).
    destruct (promises !! j); simpl; [by apply list_lookup_insert_ne |done].
Qed.

Lemma deliver_all_clock_le ord : ∀ st,
  (clock st ≤ clock (foldl (deliver promises) st ord))%N.
Proof.
  induction ord as [| j ord IH]; intros st; simpl; [done |].
  etransitivity; [| apply IH]. unfold deliver. destruct (promises !! j); simpl; lia.
Qed.

Lemma deliver_all_clock_lower ord : ∀ st i p,
  i ∈ ord → promises !! i = Some p →
  (settled_at p ≤ clock (foldl (deliver promises) st ord))%N.
Proof.
  induction ord as [| j ord IH]; intros st i p Hin Hp; simpl.
  { by apply elem_of_nil in Hin. }
  apply elem_of_cons in Hin as [-> | Hin]; [| by eapply IH].
  etransitivity; [| apply deliver_all_clock_le]. unfold deliver. rewrite Hp. simpl. lia.
Qed.

Lemma latest_upper p : p ∈ promises → (settled_at p ≤ latest promises)%N.
Proof.
  unfold latest. induction promises as [| q ps IH]; intros Hp; [by apply elem_of_nil in Hp |].
  rewrite fmap_cons, foldr_cons. apply elem_of_cons in Hp as [-> | Hp]; [lia |].
  specialize (IH Hp). lia.
Qed.

Lemma latest_attained : promises ≠ [] → ∃ p, p ∈ promises ∧ settled_at p = latest promises.
Proof.
  unfold latest. induction promises as [| q ps IH]; [done |]. intros _.
  rewrite fmap_cons, foldr_cons.
  destruct (decide (ps = [])) as [-> | Hne].
  - exists q. split; [left | cbn; lia].
  - destruct (IH Hne) as (p & Hp & Heq).
    destruct (N.max_spec (settled_at q) (foldr N.max 0%N (settled_at <$> ps)))
      as [[_ ->] | [_ ->]].
    + exists p. split; [by right | done].
    + exists q. split; [left | done].
Qed.

Lemma deliver_all_clock_upper ord : ∀ st,
  (clock st ≤ latest promises)%N →
  (clock (foldl (deliver promises) st ord) ≤ latest promises)%N.
Proof.
  induction ord as [| j ord IH]; intros st Hst; simpl; [done |].
  apply IH. unfold deliver. destruct (promises !! j) as [p |] eqn:Hp; simpl; [| done].
  apply N.max_lub; [done |]. apply latest_upper. by eapply list_elem_of_lookup_2.
Qed.

Lemma settles_all_elem ord n i : settles_all ord n → i < n → i ∈ ord.
Proof.
  unfold settles_all. rewrite Forall_forall. intros H Hi. apply H, elem_of_seq. lia.
Qed.

Lemma join_clock ord :
  settles_all ord (length promises) →
  clock (foldl (deliver promises) (join_start promises) ord) = latest promises.
Proof.
  intros Hall. apply N.le_antisymm.
  - apply deliver_all_clock_upper, N.le_0_l.
  - destruct (decide (promises = [])) as [-> | Hne]; [apply N.le_0_l |].
    destruct (latest_attained Hne) as (p & [i Hi]%list_elem_of_lookup & <-).
    eapply deliver_all_clock_lower; [| done].
    eapply settles_all_elem; [done |]. by eapply lookup_lt_Some.
Qed.

Lemma join_slots ord i p :
  promises !! i = Some p →
  slots (foldl (deliver promises) (join_start promises) ord) !! i
  = Some (if bool_decide (i ∈ ord) then Some (status p) else None).
Proof.
  intros Hp. rewrite (deliver_all_lookup _ _ i p); [| by simpl; rewrite length_replicate | done].
  case_bool_decide; [done |]. simpl. apply lookup_replicate_2. by eapply lookup_lt_Some.
Qed.

Lemma allSettled_resolves ord :
  settles_all ord (length promises) →
  Promise_allSettled promises ord = Returned (status <$> promises, latest promises).
Proof.
  intros Hall. unfold Promise_allSettled. rewrite join_clock by done.
  replace (slots _) with (Some <$> (status <$> promises)).
  { by rewrite mapM_fmap_Some. }
  apply list_eq. intros i. rewrite !list_lookup_fmap.
  destruct (promises !! i) as [p |] eqn:Hp; simpl.
  - rewrite (join_slots _ _ p Hp), bool_decide_eq_true_2; [done |].
    eapply settles_all_elem; [done |]. by eapply lookup_lt_Some.
  - symmetry. apply lookup_ge_None. rewrite deliver_all_length. simpl.
    rewrite length_replicate. by apply lookup_ge_None.
Qed.

Lemma allSettled_returned ord rs t :
  Promise_allSettled promises ord = Returned (rs, t) →
  settles_all ord (length promises).
Proof.
  unfold Promise_allSettled. destruct (mapM id _) as [rs' |] eqn:Hm; [| done].
  intros _. apply mapM_Some in Hm. unfold settles_all. apply Forall_forall.
  intros i [_ Hi]%elem_of_seq. simpl in Hi.
  destruct (lookup_lt_is_Some_2 promises i Hi) as [p Hp].
  pose proof (join_slots ord i p Hp) as Hs.
  destruct (Forall2_lookup_l _ _ _ _ _ Hm Hs) as (r & _ & Hr). simpl in Hr.
  by case_bool_decide.
Qed.

End Join.

Lemma settles_all_nil ord : settles_all ord 0.
Proof. constructor. Qed.

Lemma latest_const promises L :
  promises ≠ [] → (∀ p, p ∈ promises → settled_at p = L) → latest promises = L.
Proof.
  intros Hne Hall. destruct (latest_attained promises Hne) as (p & Hp & <-). by apply Hall.
Qed.

(** ** A detail task and a batch of them *)

Lemma detailTask_status t p r : status (detailTask t p r) = Fulfilled (enriched t p r).
Proof. unfold detailTask, enriched. by destruct (try_block t p r) as [? [? | ?]]. Qed.

Lemma detailTask_settled_at t p r : settled_at (detailTask t p r) = (try_block t p r).1.
Proof. unfold detailTask. by destruct (try_block t p r) as [? [? | ?]]. Qed.

Lemma enriched_handle t p r : handle (enriched t p r) = handle p.
Proof.
  unfold enriched, try_block, fallback, handle.
  destruct (await_fetch t r) as [? ? [[[?|]] |] | ? |]; done.
Qed.

Lemma enriched_isLoading t p r : isLoading (enriched t p r) = Some false.
Proof.
  unfold enriched, try_block, fallback.
  destruct (await_fetch t r) as [? ? [[[?|]] |] | ? |]; done.
Qed.

Lemma enriched_raises t p r e : raises t p r e → enriched t p r = fallback p.
Proof. unfold raises, enriched. by intros ->. Qed.

Lemma await_fetch_unanswered {A} t (r : response A) :
  ¬ answered_before t r → await_fetch t r = Aborted.
Proof.
  destruct r as [a rd b | a |]; simpl; [| | done];
    destruct (N.ltb_spec a t); done.
Qed.

Lemma detailTask_raises t p r e :
  raises t p r e → diagnostics (detailTask t p r) = [(name p, e)].
Proof.
  unfold raises, detailTask. destruct (try_block t p r) as [? [? | ?]]; simpl; congruence.
Qed.

Lemma detailPromises_lookup t net rp i p :
  rp !! i = Some p →
  detailPromises t net rp !! i = Some (detailTask t p (net i (url p))).
Proof. intros Hp. unfold detailPromises. by rewrite list_lookup_imap, Hp. Qed.

Lemma try_block_unanswered t p r :
  ¬ answered_before t r → try_block t p r = (t, inl AbortError).
Proof. intros H. unfold try_block. by rewrite await_fetch_unanswered. Qed.

(** The exceptions that leave the [try] block are exactly the named
    failures. *)
Lemma raises_iff_fails_with t p r e : raises t p r e ↔ fails_with t r e.
Proof.
  unfold raises. split.
  - unfold try_block, await_fetch.
    destruct r as [a rd [[[s |]] |] | a |]; cbn;
      try destruct (N.ltb_spec a t) as [Hlt | Hge]; cbn; intros [= <-];
      first [ by constructor | constructor; cbn; lia | constructor; cbn; tauto ].
  - intros [a Ha | a rd Ha | a rd Ha | r' Hr].
    + unfold try_block, await_fetch. by destruct (N.ltb_spec a t); [| lia].
    + unfold try_block, await_fetch. by destruct (N.ltb_spec a t); [| lia].
    + unfold try_block, await_fetch. by destruct (N.ltb_spec a t); [| lia].
    + by rewrite try_block_unanswered.
Qed.

Lemma try_block_succeeds t p r s :
  succeeds t r s →
  ∃ a rd, r = Arrives a rd (Parsed {| sprites := Some s |}) ∧
    try_block t p r
    = ((a + rd)%N, inr {| name := name p; url := url p;
                          image := front_default s; isLoading := Some false |}).
Proof.
  intros (a & rd & -> & Ha). exists a, rd. split; [done |].
  unfold try_block. simpl. by destruct (N.ltb_spec a t); [| lia].
Qed.

(** Once the response is there the timer is cleared: the task is not
    cancelled and settles when the body has been read, however long that
    takes. *)
Lemma answered_request_is_not_cancelled t p a rd b :
  (a < t)%N →
  cancelled (detailTask t p (Arrives a rd b)) = false ∧
  settled_at (detailTask t p (Arrives a rd b)) = (a + rd)%N.
Proof.
  intros Ha. unfold detailTask, try_block. simpl.
  destruct (N.ltb_spec a t); [| lia].
  destruct b as [[[s |]] |]; done.
Qed.

Lemma detail_values t (f : nat → PokemonWithImage → response Pokemon) rp :
  pokemonWithImages (status <$> imap (λ k p, detailTask t p (f k p)) rp)
  = imap (λ k p, enriched t p (f k p)) rp.
Proof.
  revert f. induction rp as [| p rp IH]; intros f; [done |].
  rewrite !imap_cons, fmap_cons. unfold pokemonWithImages in *. cbn [omap list_omap].
  rewrite detailTask_status. cbn [fulfilled_value]. f_equal. apply (IH (f ∘ S)).
Qed.

Lemma detailPromises_length t net rp : length (detailPromises t net rp) = length rp.
Proof. apply length_imap. Qed.

Lemma loadDetails_resolves t net ord rp :
  settles_all ord (length rp) →
  loadDetails t net ord rp
  = Returned (enrich_all t net rp, latest (detailPromises t net rp)).
Proof.
  intros Hall. unfold loadDetails.
  rewrite allSettled_resolves by (by rewrite detailPromises_length).
  unfold detailPromises at 1. by rewrite detail_values.
Qed.

Lemma loadDetails_returned t net ord rp out took :
  loadDetails t net ord rp = Returned (out, took) →
  settles_all ord (length rp).
Proof.
  unfold loadDetails.
  destruct (Promise_allSettled _ _) as [[rs t'] | | |] eqn:Hj; [| done ..].
  intros _. apply allSettled_returned in Hj. by rewrite detailPromises_length in Hj.
Qed.

Lemma enrich_all_lookup t net rp i p :
  rp !! i = Some p → enrich_all t net rp !! i = Some (enriched t p (net i (url p))).
Proof. intros Hp. unfold enrich_all. by rewrite list_lookup_imap, Hp. Qed.

Lemma enrich_all_length t net rp : length (enrich_all t net rp) = length rp.
Proof. apply length_imap. Qed.

Lemma enrich_all_handles t net rp : handle <$> enrich_all t net rp = handle <$> rp.
Proof.
  apply list_eq. intros i. rewrite !list_lookup_fmap. unfold enrich_all.
  rewrite list_lookup_imap. destruct (rp !! i); simpl; [| done].
  by rewrite enriched_handle.
Qed.

Lemma detailPromises_settled_at t net rp p :
  p ∈ detailPromises t net rp →
  ∃ k q, rp !! k = Some q ∧ settled_at p = (try_block t q (net k (url q))).1.
Proof.
  intros [k Hk]%list_elem_of_lookup. unfold detailPromises in Hk.
  rewrite list_lookup_imap in Hk. destruct (rp !! k) as [q |] eqn:Hq; [| done].
  injection Hk as <-. exists k, q. split; [done | apply detailTask_settled_at].
Qed.

Lemma console_of_elem promises ord i p d :
  i ∈ ord → promises !! i = Some p → d ∈ diagnostics p → d ∈ console_of promises ord.
Proof.
  intros Hi Hp Hd. unfold console_of. apply list_elem_of_bind. exists i. split; [| done].
  by rewrite Hp.
Qed.

Lemma console_of_nil ord : console_of [] ord = [].
Proof. unfold console_of. induction ord as [| i ord IH]; [done |]. by rewrite bind_cons, IH. Qed.

(** ** The routine, once the listing is parsed and the selection made *)

Lemma fetch_after_selection options w t rd data rp :
  listing w = Arrives t rd (Parsed data) →
  selectRandom data (count_of options) (samples w) = Returned rp →
  settles_all (order w) (length rp) →
  fetchPokemonListWithDetails options w
  = {| result := Returned (enrich_all (timeout_of options) (details w) rp);
       requests := listing_url :: (url <$> rp);
       console := console_of (detailPromises (timeout_of options) (details w) rp) (order w);
       elapsed := Some (t + rd + latest (detailPromises (timeout_of options) (details w) rp))%N |}.
Proof.
  intros Hl Hs Hall. unfold fetchPokemonListWithDetails. rewrite Hl, Hs.
  by rewrite loadDetails_resolves.
Qed.

Lemma fetch_returned options w out :
  result (fetchPokemonListWithDetails options w) = Returned out →
  ∃ t rd data rp,
    listing w = Arrives t rd (Parsed data) ∧
    selectRandom data (count_of options) (samples w) = Returned rp ∧
    settles_all (order w) (length rp) ∧
    out = enrich_all (timeout_of options) (details w) rp.
Proof.
  unfold fetchPokemonListWithDetails.
  destruct (listing w) as [t rd [data |] | t |]; [| done ..].
  destruct (selectRandom _ _ _) as [rp | | |] eqn:Hs; [| done ..].
  destruct (loadDetails _ _ _ _) as [[out' took] | | |] eqn:Hl; [| done ..].
  simpl. intros [= <-]. exists t, rd, data, rp. split_and!; [done | done | |].
  - by eapply loadDetails_returned.
  - rewrite loadDetails_resolves in Hl by (by eapply loadDetails_returned). by injection Hl.
Qed.

(** * The claims *)

(** Closes a side condition that holds by evaluation of the model. *)
Ltac by_evaluation :=
  first [ reflexivity
        | vm_compute; reflexivity
        | apply (bool_decide_unpack _); vm_compute; exact I ].

(** Closes a decidable side condition by running its decision procedure. *)
Ltac by_decision := apply (bool_decide_unpack _); vm_compute; exact I.

(** C1: whatever the detail endpoints do (answer, fail, stay silent), the
    routine returns one item per selected handle, and the item at each
    position carries the name and url of the handle at that position. *)
Theorem fetch_returns_one_item_per_handle options w t rd data rp :
  listing w = Arrives t rd (Parsed data) →
  selectRandom data (count_of options) (samples w) = Returned rp →
  settles_all (order w) (length rp) →
  ∃ out, result (fetchPokemonListWithDetails options w) = Returned out ∧
    length out = length rp ∧
    ∀ i p, rp !! i = Some p →
      ∃ o, out !! i = Some o ∧ name o = name p ∧ url o = url p.
Proof.
  intros Hl Hs Hall. rewrite (fetch_after_selection _ _ _ _ _ _ Hl Hs Hall). simpl.
  eexists. split; [done |]. split; [apply enrich_all_length |].
  intros i p Hp. eexists. split; [by apply enrich_all_lookup |].
  pose proof (enriched_handle (timeout_of options) p (details w i (url p))) as Hh.
  unfold handle in Hh. by injection Hh.
Qed.

Lemma fetch_returns_one_item_per_handle_witness :
  ∃ out, result (fetchPokemonListWithDetails (Sample.opts 3) Sample.mixed) = Returned out ∧
    length out = 3 ∧
    ∀ i p, Sample.chosen !! i = Some p →
      ∃ o, out !! i = Some o ∧ name o = name p ∧ url o = url p.
Proof.
  apply (fetch_returns_one_item_per_handle
           (Sample.opts 3) Sample.mixed 20 5 Sample.data Sample.chosen);
    by_evaluation.
Defined.

(** C2, as stated, does not hold: a non-success response is not an error
    for the routine.  [fetch] resolves on any status and the routine reads
    neither [response.ok] nor [response.status].  Here the detail endpoint
    answers 500 with a body that parses to a record; the item comes back
    with the image of that record and nothing is written to the console. *)
Lemma server_error_keeps_its_image :
  Http.ok Sample.server_error = false ∧
  details Sample.failing_server 0 (li_url Sample.pikachu)
  = Http.observed Sample.server_error ∧
  result (fetchPokemonListWithDetails (Sample.opts 1) Sample.failing_server)
  = Returned [ {| name := "pikachu"; url := li_url Sample.pikachu;
                  image := Some "pikachu.png"; isLoading := Some false |} ] ∧
  console (fetchPokemonListWithDetails (Sample.opts 1) Sample.failing_server) = [].
Proof. split_and!; vm_compute; reflexivity. Qed.

(** C2, amended: the failures of a retrieval are a transport failure, a
    body that is not JSON, a parsed record without [sprites], and a request
    still unanswered when the timer expires; a status code is none of them.
    When the retrieval of the item at position [i] fails in one of these
    ways, the routine still returns one item per handle; the item at [i] has
    the name and url of its handle, [image] null and [isLoading] false; one
    line with the name of the item and the exception is on the console; a
    sibling whose retrieval succeeds carries the [front_default] of its own
    record, and a sibling whose retrieval fails degrades in the same way. *)
Theorem failed_retrieval_degrades_alone options w t rd data rp i p e :
  listing w = Arrives t rd (Parsed data) →
  selectRandom data (count_of options) (samples w) = Returned rp →
  settles_all (order w) (length rp) →
  rp !! i = Some p →
  fails_with (timeout_of options) (details w i (url p)) e →
  ∃ out, result (fetchPokemonListWithDetails options w) = Returned out ∧
    length out = length rp ∧
    out !! i = Some {| name := name p; url := url p;
                       image := None; isLoading := Some false |} ∧
    (name p, e) ∈ console (fetchPokemonListWithDetails options w) ∧
    (∀ j q s, j ≠ i → rp !! j = Some q →
       succeeds (timeout_of options) (details w j (url q)) s →
       out !! j = Some {| name := name q; url := url q;
                          image := front_default s; isLoading := Some false |}) ∧
    (∀ j q e', j ≠ i → rp !! j = Some q →
       fails_with (timeout_of options) (details w j (url q)) e' →
       out !! j = Some {| name := name q; url := url q;
                          image := None; isLoading := Some false |}).
Proof.
  intros Hl Hs Hall Hp He. rewrite (fetch_after_selection _ _ _ _ _ _ Hl Hs Hall). simpl.
  apply raises_iff_fails_with with (p := p) in He.
  eexists. split; [done |]. split_and!.
  - apply enrich_all_length.
  - rewrite (enrich_all_lookup _ _ _ _ _ Hp). f_equal.
    unfold raises in He. unfold enriched. by rewrite He.
  - eapply console_of_elem.
    + eapply settles_all_elem; [done |]. by eapply lookup_lt_Some.
    + by apply detailPromises_lookup.
    + rewrite (detailTask_raises _ _ _ _ He). by left.
  - intros j q s _ Hq Hok. rewrite (enrich_all_lookup _ _ _ _ _ Hq). f_equal.
    destruct (try_block_succeeds (timeout_of options) q _ s Hok) as (a & b & _ & Htry).
    unfold enriched. by rewrite Htry.
  - intros j q e' _ Hq He'. rewrite (enrich_all_lookup _ _ _ _ _ Hq). f_equal.
    apply raises_iff_fails_with with (p := q) in He'.
    unfold raises in He'. unfold enriched. by rewrite He'.
Qed.

Lemma failed_retrieval_degrades_alone_witness :
  ∃ out, result (fetchPokemonListWithDetails (Sample.opts 3) Sample.mixed) = Returned out ∧
    length out = 3 ∧
    out !! 1 = Some {| name := "charizard"; url := li_url Sample.charizard;
                       image := None; isLoading := Some false |} ∧
    ("charizard", NetworkError)
      ∈ console (fetchPokemonListWithDetails (Sample.opts 3) Sample.mixed) ∧
    (∀ j q s, j ≠ 1 → Sample.chosen !! j = Some q →
       succeeds 50 (Sample.mixed_net j (url q)) s →
       out !! j = Some {| name := name q; url := url q;
                          image := front_default s; isLoading := Some false |}) ∧
    (∀ j q e', j ≠ 1 → Sample.chosen !! j = Some q →
       fails_with 50 (Sample.mixed_net j (url q)) e' →
       out !! j = Some {| name := name q; url := url q;
                          image := None; isLoading := Some false |}).
Proof.
  apply (failed_retrieval_degrades_alone
           (Sample.opts 3) Sample.mixed 20 5 Sample.data Sample.chosen
           1 (placeholder Sample.charizard) NetworkError);
    try by_evaluation.
  apply (network_failure 50 0). reflexivity.
Defined.

(** C3, as stated, does not hold: the image of a successful item is the
    record's [sprites.front_default], which the declared type allows to be
    [null].  Here the first retrieval fails, the second succeeds with such
    a record, and the second item comes back with [image = None]. *)
Lemma null_front_default_counterexample :
  raises 50 (placeholder Sample.pikachu)
    (Sample.null_sprite_net 0 (li_url Sample.pikachu)) NetworkError ∧
  succeeds 50 (Sample.null_sprite_net 1 (li_url Sample.charizard))
    {| front_default := None |} ∧
  result (fetchPokemonListWithDetails (Sample.opts 2) Sample.null_sprite)
  = Returned [ fallback (placeholder Sample.pikachu);
               {| name := "charizard"; url := li_url Sample.charizard;
                  image := None; isLoading := Some false |} ].
Proof.
  split_and!; [reflexivity | | vm_compute; reflexivity].
  exists 10%N, 0%N. split; reflexivity.
Qed.

(** C3, amended: whatever the other retrievals do, an item whose own
    retrieval succeeds comes back with its handle, [isLoading = false] and
    [image] equal to the record's [sprites.front_default]; so its image is
    non-null exactly when that member is a string. *)
Theorem successful_item_carries_front_default options w t rd data rp j p s :
  listing w = Arrives t rd (Parsed data) →
  selectRandom data (count_of options) (samples w) = Returned rp →
  settles_all (order w) (length rp) →
  rp !! j = Some p →
  succeeds (timeout_of options) (details w j (url p)) s →
  ∃ out o, result (fetchPokemonListWithDetails options w) = Returned out ∧
    out !! j = Some o ∧
    o = {| name := name p; url := url p; image := front_default s; isLoading := Some false |} ∧
    (image o ≠ None ↔ front_default s ≠ None).
Proof.
  intros Hl Hs Hall Hp Hok. rewrite (fetch_after_selection _ _ _ _ _ _ Hl Hs Hall). simpl.
  destruct (try_block_succeeds (timeout_of options) p _ s Hok) as (a & b & _ & Htry).
  eexists _, _. split; [done |]. split; [by apply enrich_all_lookup |].
  unfold enriched. rewrite Htry. done.
Qed.

Lemma successful_item_carries_front_default_witness :
  ∃ out o, result (fetchPokemonListWithDetails (Sample.opts 3) Sample.mixed) = Returned out ∧
    out !! 0 = Some o ∧
    o = {| name := "pikachu"; url := li_url Sample.pikachu;
           image := Some "pikachu.png"; isLoading := Some false |} ∧
    (image o ≠ None ↔ Some "pikachu.png" ≠ None).
Proof.
  apply (successful_item_carries_front_default
           (Sample.opts 3) Sample.mixed 20 5 Sample.data Sample.chosen
           0 (placeholder Sample.pikachu) {| front_default := Some "pikachu.png" |});
    try by_evaluation.
  exists 10%N, 0%N. split; reflexivity.
Defined.

(** C4, as stated, does not hold for the retrieval as a whole (request,
    then body): the timer only guards the wait for the response.  Here the
    response arrives after 10 ms under a timeout of 50 ms and its body
    takes 100 ms to read; the retrieval ends at 110 ms, is never cancelled
    and the item comes back with its image. *)
Lemma slow_body_outlives_the_timer :
  timeout_of (Sample.opts 1) = 50%N ∧
  settled_at (detailTask 50 (placeholder Sample.pikachu)
                (Sample.slow_body_net 0 (li_url Sample.pikachu))) = 110%N ∧
  cancelled (detailTask 50 (placeholder Sample.pikachu)
               (Sample.slow_body_net 0 (li_url Sample.pikachu))) = false ∧
  fetchPokemonListWithDetails (Sample.opts 1) Sample.slow_body
  = {| result := Returned [ {| name := "pikachu"; url := li_url Sample.pikachu;
                              image := Some "sprite.png"; isLoading := Some false |} ];
       requests := [listing_url; li_url Sample.pikachu];
       console := [];
       elapsed := Some (20 + 5 + 110)%N |}.
Proof. split_and!; vm_compute; reflexivity. Qed.

(** C4, amended: a request that has not been answered when the abort timer
    expires is cancelled at that instant ([requestTimeout] ms after
    dispatch, 10000 when the caller gave none): the task settles then, logs
    the abort, and its item comes back with [image = None]; the routine
    returns. *)
Theorem unanswered_request_is_aborted options w t rd data rp i p :
  listing w = Arrives t rd (Parsed data) →
  selectRandom data (count_of options) (samples w) = Returned rp →
  settles_all (order w) (length rp) →
  rp !! i = Some p →
  ¬ answered_before (timeout_of options) (details w i (url p)) →
  (requestTimeout options = None → timeout_of options = 10000%N) ∧
  cancelled (detailTask (timeout_of options) p (details w i (url p))) = true ∧
  settled_at (detailTask (timeout_of options) p (details w i (url p))) = timeout_of options ∧
  (name p, AbortError) ∈ console (fetchPokemonListWithDetails options w) ∧
  ∃ out o, result (fetchPokemonListWithDetails options w) = Returned out ∧
    out !! i = Some o ∧ image o = None.
Proof.
  intros Hl Hs Hall Hp Hno.
  pose proof (try_block_unanswered (timeout_of options) p _ Hno) as Htry.
  assert (raises (timeout_of options) p (details w i (url p)) AbortError) as Hr.
  { unfold raises. by rewrite Htry. }
  split; [by unfold timeout_of; intros -> |].
  split; [by unfold detailTask; rewrite Htry |].
  split; [by unfold detailTask; rewrite Htry |].
  rewrite (fetch_after_selection _ _ _ _ _ _ Hl Hs Hall). simpl. split.
  - eapply console_of_elem.
    + eapply settles_all_elem; [done |]. by eapply lookup_lt_Some.
    + by apply detailPromises_lookup.
    + rewrite (detailTask_raises _ _ _ _ Hr). by left.
  - eexists _, _. split; [done |]. split; [by apply enrich_all_lookup |].
    by rewrite (enriched_raises _ _ _ _ Hr).
Qed.

Lemma unanswered_request_is_aborted_witness :
  (requestTimeout (Sample.opts 3) = None → timeout_of (Sample.opts 3) = 10000%N) ∧
  cancelled (detailTask 50 (placeholder Sample.bulbasaur) Silent) = true ∧
  settled_at (detailTask 50 (placeholder Sample.bulbasaur) Silent) = 50%N ∧
  ("bulbasaur", AbortError)
    ∈ console (fetchPokemonListWithDetails (Sample.opts 3) Sample.mixed) ∧
  ∃ out o, result (fetchPokemonListWithDetails (Sample.opts 3) Sample.mixed) = Returned out ∧
    out !! 2 = Some o ∧ image o = None.
Proof.
  apply (unanswered_request_is_aborted
           (Sample.opts 3) Sample.mixed 20 5 Sample.data Sample.chosen
           2 (placeholder Sample.bulbasaur));
    first [ by_evaluation | exact (λ silent : False, silent) ].
Defined.

(** C5, as stated, does not hold: no run returns the items in an order
    other than that of the selected handles.  [Promise.allSettled] stores
    each outcome in the slot of its promise, not in order of arrival. *)
Lemma no_run_reorders_the_handles :
  ¬ ∃ options w t rd data randomPokemon out,
      listing w = Arrives t rd (Parsed data) ∧
      selectRandom data (count_of options) (samples w) = Returned randomPokemon ∧
      result (fetchPokemonListWithDetails options w) = Returned out ∧
      handle <$> out ≠ handle <$> randomPokemon.
Proof.
  intros (options & w & t & rd & data & rp & out & Hl & Hs & Hr & Hne).
  apply fetch_returned in Hr as (t' & rd' & data' & rp' & Hl' & Hs' & _ & ->).
  rewrite Hl in Hl'. injection Hl' as <- <- <-.
  rewrite Hs in Hs'. injection Hs' as <-.
  apply Hne, enrich_all_handles.
Qed.

(** C5, amended: the returned sequence lists the selected handles in the
    order of selection, and the result is the same for every order in
    which the detail promises settle. *)
Theorem output_keeps_selection_order options w ord' t rd data rp :
  listing w = Arrives t rd (Parsed data) →
  selectRandom data (count_of options) (samples w) = Returned rp →
  settles_all (order w) (length rp) →
  settles_all ord' (length rp) →
  ∃ out, result (fetchPokemonListWithDetails options w) = Returned out ∧
    handle <$> out = handle <$> rp ∧
    result (fetchPokemonListWithDetails options (with_order w ord')) = Returned out.
Proof.
  intros Hl Hs Hall Hall'.
  rewrite (fetch_after_selection _ _ _ _ _ _ Hl Hs Hall).
  rewrite (fetch_after_selection options (with_order w ord') t rd data rp Hl Hs Hall').
  simpl. eexists. split; [done |]. split; [apply enrich_all_handles | done].
Qed.

Lemma output_keeps_selection_order_witness :
  ∃ out, result (fetchPokemonListWithDetails (Sample.opts 3) Sample.mixed) = Returned out ∧
    handle <$> out = handle <$> Sample.chosen ∧
    result (fetchPokemonListWithDetails (Sample.opts 3)
              (with_order Sample.mixed [2; 1; 0])) = Returned out.
Proof.
  apply (output_keeps_selection_order
           (Sample.opts 3) Sample.mixed [2; 1; 0] 20 5 Sample.data Sample.chosen);
    by_evaluation.
Defined.

(** C6, as stated, does not hold: with zero items requested the routine
    still calls the list endpoint before it returns the empty sequence. *)
Lemma zero_count_still_requests_the_listing :
  result (fetchPokemonListWithDetails (Sample.opts 0) Sample.mixed) = Returned [] ∧
  requests (fetchPokemonListWithDetails (Sample.opts 0) Sample.mixed) = [listing_url] ∧
  requests (fetchPokemonListWithDetails (Sample.opts 0) Sample.mixed) ≠ [].
Proof. split_and!; [vm_compute; reflexivity .. | discriminate]. Qed.

(** C6, amended: with zero items requested the only network call is the
    one to the list endpoint, no detail request is sent and nothing is
    logged; when the listing arrives and parses, the routine returns the
    empty sequence at the instant the listing has been read. *)
Theorem zero_count_returns_empty_after_listing options w :
  count_of options = 0%Z →
  requests (fetchPokemonListWithDetails options w) = [listing_url] ∧
  console (fetchPokemonListWithDetails options w) = [] ∧
  ∀ t rd data, listing w = Arrives t rd (Parsed data) →
    result (fetchPokemonListWithDetails options w) = Returned [] ∧
    elapsed (fetchPokemonListWithDetails options w) = Some (t + rd)%N.
Proof.
  intros Hc.
  assert (∀ t rd data, listing w = Arrives t rd (Parsed data) →
    fetchPokemonListWithDetails options w
    = {| result := Returned []; requests := [listing_url]; console := [];
         elapsed := Some (t + rd)%N |}) as Hrun.
  { intros t rd data Hl.
    rewrite (fetch_after_selection options w t rd data []);
      [| done | rewrite Hc; by apply selectRandom_zero | apply settles_all_nil].
    unfold detailPromises, enrich_all. cbn [imap fmap list_fmap].
    by rewrite console_of_nil, N.add_0_r. }
  destruct (listing w) as [t rd [data |] | t |] eqn:Hl.
  - rewrite (Hrun t rd data eq_refl). split_and!; [done | done |].
    by intros ? ? ? [= <- <- <-].
  - unfold fetchPokemonListWithDetails. rewrite Hl. by split_and!.
  - unfold fetchPokemonListWithDetails. rewrite Hl. by split_and!.
  - unfold fetchPokemonListWithDetails. rewrite Hl. by split_and!.
Qed.

Lemma zero_count_returns_empty_after_listing_witness :
  requests (fetchPokemonListWithDetails (Sample.opts 0) Sample.mixed) = [listing_url] ∧
  console (fetchPokemonListWithDetails (Sample.opts 0) Sample.mixed) = [] ∧
  ∀ t rd data, listing Sample.mixed = Arrives t rd (Parsed data) →
    result (fetchPokemonListWithDetails (Sample.opts 0) Sample.mixed) = Returned [] ∧
    elapsed (fetchPokemonListWithDetails (Sample.opts 0) Sample.mixed) = Some (t + rd)%N.
Proof.
  apply (zero_count_returns_empty_after_listing (Sample.opts 0) Sample.mixed).
  reflexivity.
Defined.

(** C7, as stated, does not hold: the caller passes no handles.  With one
    and the same argument the routine fetches different handles, depending
    on what the list endpoint and the random source give it; so the
    addresses it requests are not a function of its argument. *)
Lemma handles_are_not_an_argument :
  requests (fetchPokemonListWithDetails (Sample.opts 1) Sample.mixed)
  = [listing_url; li_url Sample.pikachu] ∧
  requests (fetchPokemonListWithDetails (Sample.opts 1) Sample.last_first)
  = [listing_url; li_url Sample.bulbasaur] ∧
  ¬ ∃ supplied : FetchPokemonOptions → list string,
      ∀ options w, requests (fetchPokemonListWithDetails options w) = supplied options.
Proof.
  split_and!; [vm_compute; reflexivity .. |].
  intros [supplied Hsupplied].
  pose proof (Hsupplied (Sample.opts 1) Sample.mixed) as Ha.
  pose proof (Hsupplied (Sample.opts 1) Sample.last_first) as Hb.
  rewrite <- Hb in Ha. vm_compute in Ha. discriminate Ha.
Qed.

(** C7, amended: the entry point takes an options record ([requestTimeout],
    10000 when absent, and [count], 10 when absent).  It first requests the listing,
    then fetches the record of each handle it selected: when it returns,
    the items are [count] entries of the listing taken at pairwise distinct
    indices, and the requests sent are the listing address followed by the
    addresses of exactly these items. *)
Theorem fetch_lists_and_selects_its_handles options w t rd data rs out :
  listing w = Arrives t rd (Parsed data) →
  results data = Some rs →
  result (fetchPokemonListWithDetails options w) = Returned out →
  (requestTimeout options = None → timeout_of options = 10000%N) ∧
  (count options = None → count_of options = 10%Z) ∧
  requests (fetchPokemonListWithDetails options w) = listing_url :: (url <$> out) ∧
  Z.of_nat (length out) = Z.max 0 (count_of options) ∧
  ∃ idxs, NoDup idxs ∧
    Forall2 (λ i o, ∃ x, item_at rs i = Some x ∧ name o = li_name x ∧ url o = li_url x)
      idxs out.
Proof.
  intros Hl Hdata Hr.
  apply fetch_returned in Hr as (t' & rd' & data' & rp & Hl' & Hs & Hall & ->).
  rewrite Hl in Hl'. injection Hl' as <- <- <-.
  destruct (selectRandom_returned data rs _ Hdata _ _ Hs) as (Hlen & idxs & Hnd & Hp).
  split; [by unfold timeout_of; intros -> |].
  split; [by unfold count_of; intros -> |].
  rewrite (fetch_after_selection _ _ _ _ _ _ Hl Hs Hall). cbn [requests].
  split.
  { f_equal. change url with (snd ∘ handle).
    by rewrite !list_fmap_compose, enrich_all_handles. }
  split; [by rewrite enrich_all_length |].
  exists idxs. split; [done |].
  apply Forall2_same_length_lookup. split.
  { rewrite enrich_all_length. by eapply Forall2_length. }
  intros k i o Hi Ho.
  destruct (Forall2_lookup_l _ _ _ _ _ Hp Hi) as (p & Hk & x & Hx & ->).
  rewrite (enrich_all_lookup _ _ _ _ _ Hk) in Ho. injection Ho as <-.
  exists x. split; [done |].
  pose proof (enriched_handle (timeout_of options) (placeholder x)
                (details w k (url (placeholder x)))) as Hh.
  unfold handle in Hh. by injection Hh.
Qed.

Lemma fetch_lists_and_selects_its_handles_witness :
  (requestTimeout (Sample.opts 1) = None → timeout_of (Sample.opts 1) = 10000%N) ∧
  (count (Sample.opts 1) = None → count_of (Sample.opts 1) = 10%Z) ∧
  requests (fetchPokemonListWithDetails (Sample.opts 1) Sample.last_first)
  = listing_url :: (url <$> Sample.last_first_out) ∧
  Z.of_nat (length Sample.last_first_out) = Z.max 0 (count_of (Sample.opts 1)) ∧
  ∃ idxs, NoDup idxs ∧
    Forall2 (λ i o, ∃ x, item_at Sample.three i = Some x ∧
                         name o = li_name x ∧ url o = li_url x)
      idxs Sample.last_first_out.
Proof.
  apply (fetch_lists_and_selects_its_handles
           (Sample.opts 1) Sample.last_first 20 5 Sample.data Sample.three
           Sample.last_first_out);
    by_evaluation.
Defined.

(** C8: every item of a returned sequence has [isLoading = false], whether
    its task ended in the [try] branch or in the [catch] branch. *)
Theorem returned_items_are_not_loading options w out :
  result (fetchPokemonListWithDetails options w) = Returned out →
  Forall (λ o, isLoading o = Some false) out.
Proof.
  intros (t & rd & data & rp & _ & _ & _ & ->)%fetch_returned.
  apply Forall_lookup. intros i o. unfold enrich_all. rewrite list_lookup_imap.
  destruct (rp !! i) as [p |]; [| done]. intros [= <-]. apply enriched_isLoading.
Qed.

Lemma returned_items_are_not_loading_witness :
  Forall (λ o, isLoading o = Some false)
    [ {| name := "pikachu"; url := li_url Sample.pikachu;
         image := Some "pikachu.png"; isLoading := Some false |};
      fallback (placeholder Sample.charizard);
      fallback (placeholder Sample.bulbasaur) ].
Proof.
  apply (returned_items_are_not_loading (Sample.opts 3) Sample.mixed).
  vm_compute. reflexivity.
Defined.

(** C9, as stated, does not hold: a listing with at least as many entries
    as are asked for does not make the loop return.  The listing of three
    holds the two entries asked for, but a source that keeps answering 0
    draws index 0 for ever: whatever the number of samples, the loop has
    not returned.  And the listing of two whose first entry is [null]
    holds the one entry asked for, but the first draw reads [null] and the
    access to its [name] throws. *)
Lemma selection_can_stall_or_throw :
  (¬ ∃ k sel, selectRandom Sample.data 2 (replicate k 0%Q) = Returned sel) ∧
  selectRandom Sample.with_null 1 [0%Q] = Threw TypeError.
Proof.
  split; [| vm_compute; reflexivity].
  intros (k & sel & Hsel). destruct k as [| k]; [done |].
  unfold selectRandom in Hsel.
  change (select_loop Sample.data 2 (replicate (S k) 0%Q) ∅ [])
    with (select_loop Sample.data 2 (replicate k 0%Q) ({[ 0%Z ]} ∪ ∅)
            ([] ++ [placeholder Sample.pikachu])) in Hsel.
  rewrite (select_loop_stuck Sample.data Sample.three 2 eq_refl) in Hsel; [done | | by cbn].
  apply elem_of_union_l, elem_of_singleton. reflexivity.
Qed.

(** C9, amended: the selection loop on a listing [rs], asked for [n]
    entries, with the binary64 samples [samples] of [Math.random()].
    - When no entry is [null] and [n ≤ length rs], the loop returns exactly
      when the samples have drawn [n] distinct indices; no run is past
      return: after any samples there are further ones that make it return.
    - Whenever it returns, it returns [max 0 n] handles; they are built from
      the entries at pairwise distinct indices of the listing, each with the
      name and url of its entry, [image] null and [isLoading] true.
    - With a listing of fewer than [n] entries it never returns; when the
      listing is not empty and has no [null] entry it is still running after
      any number of samples. *)
Theorem selection_returns_once_distinct_indices_are_drawn data rs n samples :
  results data = Some rs →
  Forall double_sample samples →
  (Forall is_Some rs → (n ≤ Z.of_nat (length rs))%Z →
     ((∃ sel, selectRandom data n samples = Returned sel)
      ↔ (n ≤ Z.of_nat (distinct_drawn (length rs) samples))%Z) ∧
     ((Z.of_nat (length rs) < 2 ^ 32)%Z →
      ∃ sel, selectRandom data n (samples ++ spread (length rs)) = Returned sel)) ∧
  (∀ sel, selectRandom data n samples = Returned sel →
     Z.of_nat (length sel) = Z.max 0 n ∧
     ∃ idxs, NoDup idxs ∧
       Forall2 (λ i p, ∃ x, (0 ≤ i)%Z ∧ rs !! Z.to_nat i = Some (Some x) ∧
                  p = {| name := li_name x; url := li_url x;
                         image := None; isLoading := Some true |}) idxs sel) ∧
  ((Z.of_nat (length rs) < n)%Z →
     (∀ sel, selectRandom data n samples ≠ Returned sel) ∧
     (Forall is_Some rs → 0 < length rs → selectRandom data n samples = Spinning)).
Proof.
  intros Hdata Hunit. split_and!.
  - intros Hrs Hn. split; [by apply selectRandom_returns_iff |].
    intros Hlen. apply (selectRandom_returns_iff data rs n Hdata); [done | | done |].
    + apply Forall_app. split; [done | by apply spread_double].
    + etransitivity; [| apply inj_le, distinct_drawn_app].
      by rewrite distinct_drawn_spread.
  - intros sel Hsel.
    destruct (selectRandom_returned data rs n Hdata samples sel Hsel) as (Hlen & idxs & Hnd & Hp).
    split; [done |]. exists idxs. split; [done |].
    eapply Forall2_impl; [exact Hp |].
    intros i p (x & Hx & ->). apply item_at_Some in Hx as [Hi Hx].
    exists x. split_and!; [lia | done | done].
  - intros Hn. split.
    + by apply (select_loop_never_returns data rs n Hdata samples ∅ [] []
                  (selection_inv_init rs)).
    + intros Hrs Hpos.
      by apply (select_loop_spins data rs n Hdata samples ∅ [] [] (selection_inv_init rs)).
Qed.

Lemma selection_returns_once_distinct_indices_are_drawn_witness :
  (∃ sel, selectRandom Sample.data 2 Sample.rounded = Returned sel) ∧
  selectRandom Sample.data 4 Sample.stuttering = Spinning.
Proof.
  split.
  - destruct (selection_returns_once_distinct_indices_are_drawn
                Sample.data Sample.three 2 Sample.rounded eq_refl ltac:(by_decision))
      as (Hreturns & _ & _).
    destruct Hreturns as [Hiff _]; [by_evaluation | by_evaluation |].
    apply Hiff. by_evaluation.
  - destruct (selection_returns_once_distinct_indices_are_drawn
                Sample.data Sample.three 4 Sample.stuttering eq_refl ltac:(by_decision))
      as (_ & _ & Hspins).
    destruct Hspins as [_ Hspins]; [by_evaluation |].
    apply Hspins; by_evaluation.
Defined.

(** C10, on the logical clock of the model: when each of the [N ≥ 1]
    retrievals of a batch succeeds and takes [L] ms (response and body),
    the join resolves [L] ms after the requests were sent, whatever [N]
    is; so the routine ends [L] ms after the listing has been read.  For
    [N ≥ 2] and [L > 0] this is less than [N × L]. *)
Theorem batch_lasts_one_latency options w t rd data rp L :
  listing w = Arrives t rd (Parsed data) →
  selectRandom data (count_of options) (samples w) = Returned rp →
  settles_all (order w) (length rp) →
  rp ≠ [] →
  (∀ k p, rp !! k = Some p →
     ∃ a b s, details w k (url p) = Arrives a b (Parsed {| sprites := Some s |}) ∧
       (a < timeout_of options)%N ∧ (a + b = L)%N) →
  elapsed (fetchPokemonListWithDetails options w) = Some (t + rd + L)%N ∧
  (2 ≤ length rp → (0 < L)%N → (L < N.of_nat (length rp) * L)%N).
Proof.
  intros Hl Hs Hall Hne Hok. split; [| nia].
  rewrite (fetch_after_selection _ _ _ _ _ _ Hl Hs Hall). cbn [elapsed].
  do 2 f_equal. apply latest_const.
  - intros Hnil. apply Hne, length_zero_iff_nil.
    by rewrite <- (detailPromises_length (timeout_of options) (details w) rp), Hnil.
  - intros p (k & q & Hq & ->)%detailPromises_settled_at.
    destruct (Hok k q Hq) as (a & b & s & Hr & Ha & <-).
    destruct (try_block_succeeds (timeout_of options) q (details w k (url q)) s)
      as (a' & b' & Hr' & ->); [by exists a, b |].
    rewrite Hr in Hr'. by injection Hr' as <- <-.
Qed.

Lemma batch_lasts_one_latency_witness :
  elapsed (fetchPokemonListWithDetails (Sample.opts 3) Sample.steady) = Some (20 + 5 + 40)%N ∧
  (2 ≤ length Sample.chosen → (0 < 40)%N → (40 < N.of_nat (length Sample.chosen) * 40)%N).
Proof.
  apply (batch_lasts_one_latency
           (Sample.opts 3) Sample.steady 20 5 Sample.data Sample.chosen 40);
    try by_evaluation.
  intros k p _. exists 30%N, 10%N, {| front_default := Some "sprite.png" |}.
  split_and!; reflexivity.
Defined.

(** * Beyond the claims *)

(** ** The timing tracker *)

Lemma recorded_readings readings : Tracker.recorded readings = readings.
Proof.
  unfold Tracker.recorded, Tracker.createFetchTimingTracker.
  enough (∀ acc, foldl (λ callTimes now, (Tracker.recordCall now callTimes).1) acc readings
                 = acc ++ readings) as H by apply H.
  induction readings as [| now readings IH]; intros acc; cbn [foldl].
  - by rewrite app_nil_r.
  - rewrite IH. cbn. by rewrite <- app_assoc.
Qed.

(** X1: with a clock that never goes back, the tracker reports a
    non-negative [timeDiff], and reports [isParallel] exactly when at least
    two calls were recorded and any two recorded calls are less than
    100 ms apart. *)
Theorem tracker_parallel_iff_all_within_100ms readings :
  Tracker.monotone readings →
  (0 ≤ Tracker.timeDiff (Tracker.getTiming (Tracker.recorded readings)))%Z ∧
  (Tracker.isParallel (Tracker.getTiming (Tracker.recorded readings)) = true
   ↔ 2 ≤ length readings ∧
     ∀ a b, a ∈ readings → b ∈ readings → (Z.abs (a - b) < 100)%Z).
Proof.
  intros Hmono. rewrite recorded_readings. unfold Tracker.getTiming.
  destruct (Nat.ltb_spec (length readings) 2) as [Hlt | Hge]; cbn [Tracker.timeDiff Tracker.isParallel].
  { split; [done |]. split; [done | lia]. }
  destruct (lookup_lt_is_Some_2 readings 0) as [first Hfirst]; [lia |].
  destruct (lookup_lt_is_Some_2 readings (length readings - 1)) as [lst Hlast]; [lia |].
  rewrite Hfirst, Hlast. cbn [from_option id].
  assert (∀ a, a ∈ readings → (first ≤ a ≤ lst)%Z) as Hbetween.
  { intros a [i Hi]%list_elem_of_lookup. pose proof (lookup_lt_Some _ _ _ Hi). split.
    - eapply (Hmono 0 i); [lia | done ..].
    - eapply (Hmono i (length readings - 1)); [lia | done ..]. }
  split; [pose proof (Hbetween lst ltac:(by eapply list_elem_of_lookup_2)); lia |].
  rewrite bool_decide_eq_true. split.
  - intros Hd. split; [done |]. intros a b Ha Hb.
    pose proof (Hbetween a Ha). pose proof (Hbetween b Hb). lia.
  - intros [_ Hall].
    pose proof (Hall lst first ltac:(by eapply list_elem_of_lookup_2)
                  ltac:(by eapply list_elem_of_lookup_2)). lia.
Qed.

Lemma tracker_parallel_iff_all_within_100ms_witness :
  (0 ≤ Tracker.timeDiff (Tracker.getTiming (Tracker.recorded Scenario.burst)))%Z ∧
  (Tracker.isParallel (Tracker.getTiming (Tracker.recorded Scenario.burst)) = true
   ↔ 2 ≤ length Scenario.burst ∧
     ∀ a b, a ∈ Scenario.burst → b ∈ Scenario.burst → (Z.abs (a - b) < 100)%Z).
Proof.
  apply (tracker_parallel_iff_all_within_100ms Scenario.burst).
  intros i j a b Hij Hi Hj.
  destruct i as [| [| [| i]]], j as [| [| [| j]]]; simplify_eq/=; lia.
Defined.

(** ** The fetcher: when it rejects, what it logs, when an image is null *)

Lemma select_loop_threw data n samples : ∀ used rp e,
  Forall double_sample samples →
  select_loop data n samples used rp = Threw e →
  e = TypeError ∧ (0 < n)%Z ∧
  (results data = None ∨ ∃ rs, results data = Some rs ∧ (rs = [] ∨ None ∈ rs)).
Proof.
  induction samples as [| u samples IH]; intros used rp e Hunit; cbn [select_loop];
    destruct (Z.ltb_spec (Z.of_nat (length rp)) n) as [Hlt | Hge]; try done.
  apply Forall_cons in Hunit as [Hu Hunit].
  destruct (results data) as [rs |] eqn:Hdata; [| intros [= <-]; split_and!; [done | lia | by left]].
  case_bool_decide as Hused; [by apply IH |].
  destruct (item_at rs _) as [x |] eqn:Hx; [by apply IH |].
  intros [= <-]. split_and!; [done | lia |]. right. exists rs. split; [done |].
  destruct rs as [| r rs]; [by left |]. right.
  pose proof (randomIndex_range u (length (r :: rs)) Hu ltac:(simpl; lia)) as Hi.
  destruct (item_at_None _ _ (proj1 Hi) Hx) as [Hnone | Hnull].
  - apply lookup_ge_None in Hnone. lia.
  - by eapply list_elem_of_lookup_2.
Qed.

Lemma loadDetails_never_throws t net ord rp e : loadDetails t net ord rp ≠ Threw e.
Proof.
  unfold loadDetails, Promise_allSettled.
  by destruct (mapM id _) as [rs |].
Qed.

(** X2: with binary64 samples of [Math.random()], the promise returned by
    [fetchPokemonListWithDetails] is rejected only before any detail
    request is sent and before anything is logged: by a transport failure
    of the list request, by a listing that is not JSON, or by a
    [TypeError] when at least one item is asked for and the listing has no
    [results] array, an empty one, or one with a [null] entry. *)
Theorem routine_rejects_only_in_the_listing_phase options w e :
  Forall double_sample (samples w) →
  result (fetchPokemonListWithDetails options w) = Threw e →
  requests (fetchPokemonListWithDetails options w) = [listing_url] ∧
  console (fetchPokemonListWithDetails options w) = [] ∧
  ((∃ t, listing w = Rejects t ∧ e = NetworkError) ∨
   (∃ t rd, listing w = Arrives t rd Unparsable ∧ e = SyntaxError) ∨
   (∃ t rd data, listing w = Arrives t rd (Parsed data) ∧ e = TypeError ∧
      (0 < count_of options)%Z ∧
      (results data = None ∨ ∃ rs, results data = Some rs ∧ (rs = [] ∨ None ∈ rs)))).
Proof.
  intros Hunit. unfold fetchPokemonListWithDetails.
  destruct (listing w) as [t rd [data |] | t |] eqn:Hl; cbn [early result requests console].
  - destruct (selectRandom data (count_of options) (samples w)) as [rp | e' | |] eqn:Hs;
      cbn [early result requests console]; try done.
    + destruct (loadDetails _ _ _ _) as [[out took] | e' | |] eqn:Hd; cbn; try done.
      by apply loadDetails_never_throws in Hd.
    + intros [= ->]. apply select_loop_threw in Hs as (-> & Hn & Hres); [| done].
      split_and!; [done | done |]. right; right. by exists t, rd, data.
  - intros [= <-]. split_and!; [done | done |]. right; left. by exists t, rd.
  - intros [= <-]. split_and!; [done | done |]. left. by exists t.
  - done.
Qed.

Lemma routine_rejects_only_in_the_listing_phase_witness :
  requests (fetchPokemonListWithDetails (Sample.opts 1) Sample.null_listed) = [listing_url] ∧
  console (fetchPokemonListWithDetails (Sample.opts 1) Sample.null_listed) = [] ∧
  ((∃ t, listing Sample.null_listed = Rejects t ∧ TypeError = NetworkError) ∨
   (∃ t rd, listing Sample.null_listed = Arrives t rd Unparsable ∧ TypeError = SyntaxError) ∨
   (∃ t rd data, listing Sample.null_listed = Arrives t rd (Parsed data) ∧
      TypeError = TypeError ∧
      (0 < count_of (Sample.opts 1))%Z ∧
      (results data = None ∨ ∃ rs, results data = Some rs ∧ (rs = [] ∨ None ∈ rs)))).
Proof.
  apply (routine_rejects_only_in_the_listing_phase (Sample.opts 1) Sample.null_listed);
    [by_decision | by_evaluation].
Defined.

Lemma try_block_returns t p r item :
  (try_block t p r).2 = inr item →
  ∃ s, succeeds t r s ∧
    item = {| name := name p; url := url p; image := front_default s;
              isLoading := Some false |}.
Proof.
  unfold try_block, await_fetch.
  destruct r as [a rd [[[s |]] |] | a |]; cbn; try destruct (N.ltb_spec a t); cbn; try done.
  intros [= <-]. exists s. split; [by exists a, rd | done].
Qed.

Lemma diagnostics_detailTask t p r line :
  line ∈ diagnostics (detailTask t p r) ↔ ∃ e, raises t p r e ∧ line = (name p, e).
Proof.
  unfold raises, detailTask. destruct (try_block t p r) as [at_ [e | item]]; cbn.
  - rewrite list_elem_of_singleton. split; [intros ->; by exists e | by intros (e' & [= <-] & ->)].
  - split; [by intros ?%elem_of_nil | by intros (e' & ? & _)].
Qed.

(** X3: a line is written with [console.error] exactly for the items
    whose retrieval raised, with the name of the item and the exception;
    nothing is logged for an item that succeeded. *)
Theorem console_lists_exactly_the_failed_items options w t rd data rp line :
  listing w = Arrives t rd (Parsed data) →
  selectRandom data (count_of options) (samples w) = Returned rp →
  settles_all (order w) (length rp) →
  line ∈ console (fetchPokemonListWithDetails options w)
  ↔ ∃ i p e, rp !! i = Some p ∧
      raises (timeout_of options) p (details w i (url p)) e ∧ line = (name p, e).
Proof.
  intros Hl Hs Hall. rewrite (fetch_after_selection _ _ _ _ _ _ Hl Hs Hall). cbn [console].
  unfold console_of. rewrite list_elem_of_bind. split.
  - intros (i & Hline & Hi).
    destruct (rp !! i) as [p |] eqn:Hp.
    + rewrite (detailPromises_lookup _ _ _ _ _ Hp) in Hline. cbn in Hline.
      apply diagnostics_detailTask in Hline as (e & He & ->). by exists i, p, e.
    + unfold detailPromises in Hline. rewrite list_lookup_imap, Hp in Hline.
      by apply elem_of_nil in Hline.
  - intros (i & p & e & Hp & He & ->). exists i. split.
    + rewrite (detailPromises_lookup _ _ _ _ _ Hp). cbn.
      apply diagnostics_detailTask. by exists e.
    + eapply settles_all_elem; [done |]. by eapply lookup_lt_Some.
Qed.

Lemma console_lists_exactly_the_failed_items_witness :
  ("pikachu", AbortError) ∈ console (fetchPokemonListWithDetails (Sample.opts 3) Sample.mixed)
  ↔ ∃ i p e, Sample.chosen !! i = Some p ∧
      raises (timeout_of (Sample.opts 3)) p (details Sample.mixed i (url p)) e ∧
      ("pikachu", AbortError) = (name p, e).
Proof.
  apply (console_lists_exactly_the_failed_items
           (Sample.opts 3) Sample.mixed 20 5 Sample.data Sample.chosen);
    by_evaluation.
Defined.

(** X4: the image of a returned item is null exactly when its retrieval
    raised, or succeeded with a record whose [front_default] is null. *)
Theorem image_is_null_iff_raised_or_null_sprite options w t rd data rp i p :
  listing w = Arrives t rd (Parsed data) →
  selectRandom data (count_of options) (samples w) = Returned rp →
  settles_all (order w) (length rp) →
  rp !! i = Some p →
  ∃ out o, result (fetchPokemonListWithDetails options w) = Returned out ∧
    out !! i = Some o ∧
    (image o = None
     ↔ (∃ e, raises (timeout_of options) p (details w i (url p)) e) ∨
       (∃ s, succeeds (timeout_of options) (details w i (url p)) s ∧ front_default s = None)).
Proof.
  intros Hl Hs Hall Hp. rewrite (fetch_after_selection _ _ _ _ _ _ Hl Hs Hall). cbn [result].
  eexists _, _. split; [done |]. split; [by apply enrich_all_lookup |].
  unfold enriched, raises.
  destruct (try_block (timeout_of options) p (details w i (url p))) as [at_ [e | item]] eqn:Htry;
    cbn [snd].
  - split; [intros _; left; by exists e | done].
  - pose proof (try_block_returns (timeout_of options) p (details w i (url p)) item) as Hret.
    rewrite Htry in Hret. destruct (Hret eq_refl) as (s & Hok & ->). cbn [image]. split.
    + intros Hnull. right. by exists s.
    + intros [[e [=]] | (s' & (a & b & Hr & _) & Hnull)].
      destruct Hok as (a' & b' & Hr' & _). rewrite Hr in Hr'. by injection Hr' as _ _ ->.
Qed.

Lemma image_is_null_iff_raised_or_null_sprite_witness :
  ∃ out o, result (fetchPokemonListWithDetails (Sample.opts 2) Sample.null_sprite) = Returned out ∧
    out !! 1 = Some o ∧
    (image o = None
     ↔ (∃ e, raises (timeout_of (Sample.opts 2)) (placeholder Sample.charizard)
               (details Sample.null_sprite 1 (url (placeholder Sample.charizard))) e) ∨
       (∃ s, succeeds (timeout_of (Sample.opts 2))
               (details Sample.null_sprite 1 (url (placeholder Sample.charizard))) s ∧
             front_default s = None)).
Proof.
  apply (image_is_null_iff_raised_or_null_sprite
           (Sample.opts 2) Sample.null_sprite 20 5 Sample.data
           [placeholder Sample.pikachu; placeholder Sample.charizard]);
    by_evaluation.
Defined.

(** ** The description shown in the details panel *)

Lemma truthy_Some s v : Components.truthy s = Some v ↔ s = Some v ∧ v ≠ "".
Proof.
  unfold Components.truthy. destruct s as [x |]; [| split; [done | by intros [? _]]].
  destruct (decide (x = "")) as [-> | Hx]; split.
  - done.
  - by intros [[= <-] ?].
  - by intros [= <-].
  - by intros [[= <-] _].
Qed.

Lemma clean_length s : String.length (App.clean s) = String.length s.
Proof. induction s as [| c s IH]; cbn; [done | by rewrite IH]. Qed.

Lemma clean_not_empty s : s ≠ "" → App.clean s ≠ "".
Proof. by destruct s. Qed.

Lemma clean_no_form_feed s : ¬ In App.form_feed (String.list_ascii_of_string (App.clean s)).
Proof.
  induction s as [| c s IH]; cbn; [tauto |]. intros [Hc | Hin]; [| done].
  destruct (decide (c = App.form_feed)); [discriminate Hc | done].
Qed.

Lemma clean_idempotent s : App.clean (App.clean s) = App.clean s.
Proof.
  induction s as [| c s IH]; cbn; [done |]. rewrite IH. f_equal.
  destruct (decide (c = App.form_feed)); [done |]. by rewrite decide_False.
Qed.

Lemma describe_source entries :
  App.describe entries = App.no_description ∨
  ∃ e, e ∈ entries ∧ App.flavor_text e ≠ "" ∧ App.describe entries = App.flavor_text e.
Proof.
  unfold App.describe.
  destruct (Components.truthy (App.flavor_text <$> List.find _ entries)) as [text |] eqn:Hen.
  { right. apply truthy_Some in Hen as [Hfind Hne].
    destruct (List.find _ entries) as [e |] eqn:Hf; [| done]. injection Hfind as <-.
    exists e. split; [| done]. apply list_elem_of_In. by eapply find_some. }
  destruct (Components.truthy (App.flavor_text <$> entries !! 0)) as [text |] eqn:Hfst; [| by left].
  right. apply truthy_Some in Hfst as [Hlook Hne].
  destruct (entries !! 0) as [e |] eqn:He; [| done]. injection Hlook as <-.
  exists e. split; [by eapply list_elem_of_lookup_2 | done].
Qed.

Lemma describe_not_empty entries : App.describe entries ≠ "".
Proof.
  destruct (describe_source entries) as [-> | (e & _ & Hne & ->)]; done.
Qed.

(** X5: the description stored by [fetchPokemonDetails] is never empty
    and holds no form feed; before the form feeds are replaced it is the
    non-empty text of one of the entries, or the default text. *)
Theorem description_is_clean_and_never_empty entries :
  App.clean (App.describe entries) ≠ "" ∧
  ¬ In App.form_feed (String.list_ascii_of_string (App.clean (App.describe entries))) ∧
  (App.describe entries = App.no_description ∨
   ∃ e, e ∈ entries ∧ App.flavor_text e ≠ "" ∧ App.describe entries = App.flavor_text e).
Proof.
  split_and!.
  - apply clean_not_empty, describe_not_empty.
  - apply clean_no_form_feed.
  - apply describe_source.
Qed.

Lemma find_first_match {A} (f : A → bool) before x after :
  Forall (λ y, f y = false) before → f x = true →
  List.find f (before ++ x :: after) = Some x.
Proof.
  intros Hb Hx. induction Hb as [| y before Hy _ IH]; cbn; [by rewrite Hx | by rewrite Hy].
Qed.

(** X6: when the first entry in English has a non-empty text, that text
    is the description chosen, whatever the other entries are. *)
Theorem description_prefers_the_first_english_entry before e after :
  Forall (λ other, App.language_name other ≠ "en") before →
  App.language_name e = "en" →
  App.flavor_text e ≠ "" →
  App.describe (before ++ e :: after) = App.flavor_text e.
Proof.
  intros Hb He Hne. unfold App.describe.
  rewrite (find_first_match _ before e after).
  - cbn. unfold Components.truthy. by rewrite decide_False.
  - eapply Forall_impl; [exact Hb |]. intros other Ho. by apply bool_decide_eq_false.
  - by apply bool_decide_eq_true.
Qed.

Lemma description_prefers_the_first_english_entry_witness :
  App.describe ([Scenario.japanese] ++ Scenario.english :: [Scenario.english_later])
  = App.flavor_text Scenario.english.
Proof.
  apply (description_prefers_the_first_english_entry
           [Scenario.japanese] Scenario.english [Scenario.english_later]).
  - repeat constructor. by vm_compute.
  - reflexivity.
  - by vm_compute.
Defined.

(** ** The details handler *)

(** X7: [fetchPokemonDetails] never touches the list, its loading flag
    or its error, and ends in one of three ways.  It runs to its end with
    a selection that has a species address and a non-empty description,
    and no error; or it runs to its end with the former selection kept and
    the error message naming the address; in both cases [detailsLoading]
    is false.  Or an endpoint never answers and it waits for ever with
    [detailsLoading] true: these requests have no timer. *)
Theorem details_fetch_ends_selected_failed_or_waiting url net s0 :
  let a := App.fetchPokemonDetails url net s0 in
  let s := App.final a s0 in
  App.pokemonList s = App.pokemonList s0 ∧
  App.loading s = App.loading s0 ∧
  App.error s = App.error s0 ∧
  ((App.finished a = true ∧ App.detailsLoading s = false ∧
    ∃ selected, App.selectedPokemon s = Some selected ∧ App.detailsError s = None ∧
      is_Some (App.species_url (App.data selected)) ∧ App.description selected ≠ "") ∨
   (App.finished a = true ∧ App.detailsLoading s = false ∧
    App.selectedPokemon s = App.selectedPokemon s0 ∧
    App.detailsError s = Some ("Failed to load Pokemon details from " +:+ url)) ∨
   (App.finished a = false ∧ App.detailsLoading s = true ∧
    App.selectedPokemon s = App.selectedPokemon s0 ∧ App.detailsError s = None ∧
    (net 0 url = Silent ∨
     ∃ t rd d speciesUrl, net 0 url = Arrives t rd (Parsed d) ∧
       App.species_url d = Some speciesUrl ∧ net 1 speciesUrl = Silent))).
Proof.
  cbv zeta. unfold App.fetchPokemonDetails, App.final.
  destruct (net 0 url) as [t rd [d |] | t |] eqn:H0; cbn;
    [| by split_and!; [..| right; left] | by split_and!; [..| right; left]
     | split_and!; [done .. |]; right; right; split_and!; [done .. | by left]].
  destruct (App.species_url d) as [su |] eqn:Hsu; cbn;
    [| by split_and!; [..| right; left]].
  destruct (net 1 su) as [t' rd' [sd |] | t' |] eqn:H1; cbn;
    [| by split_and!; [..| right; left] | by split_and!; [..| right; left]
     | split_and!; [done .. |]; right; right; split_and!; [done .. |]; right;
       by exists t, rd, d, su].
  destruct (App.flavor_text_entries sd) as [entries |]; cbn;
    [| by split_and!; [..| right; left]].
  split_and!; [done .. |]. left. split_and!; [done .. |].
  eexists. split_and!; [done | done | cbn; rewrite ?Hsu; by eexists |].
  apply clean_not_empty, describe_not_empty.
Qed.

Lemma details_success url net s0 t rd d su t' rd' sd entries :
  net 0 url = Arrives t rd (Parsed d) →
  App.species_url d = Some su →
  net 1 su = Arrives t' rd' (Parsed sd) →
  App.flavor_text_entries sd = Some entries →
  App.fetchPokemonDetails url net s0
  = {| App.shown :=
         [ App.setDetailsError None (App.setDetailsLoading true s0);
           App.setDetailsLoading false
             (App.setSelectedPokemon
                (Some {| App.data := d; App.description := App.clean (App.describe entries) |})
                (App.setDetailsError None (App.setDetailsLoading true s0))) ];
       App.requested := [url; su];
       App.finished := true |}.
Proof. intros H0 Hsu H1 He. unfold App.fetchPokemonDetails. by rewrite H0, Hsu, H1, He. Qed.

(** X8: after a successful [fetchPokemonDetails], the list shows the same
    cards as before, and a card that is not loading is highlighted exactly
    when its address equals the species address of the fetched record (not
    the address that was clicked). *)
Theorem highlight_follows_the_species_address address net s0 t rd d su t' rd' sd entries :
  net 0 address = Arrives t rd (Parsed d) →
  App.species_url d = Some su →
  net 1 su = Arrives t' rd' (Parsed sd) →
  App.flavor_text_entries sd = Some entries →
  App.loading s0 = false →
  Components.truthy (App.error s0) = None →
  Components.content
    (App.list_view (App.final (App.fetchPokemonDetails address net s0) s0))
  = Components.Grid (Components.card (Some su) <$> App.pokemonList s0) ∧
  ∀ poke, isLoading poke ≠ Some true →
    ∃ src alt, Components.card (Some su) poke
      = Components.PokemonCard (name poke) (bool_decide (url poke = su)) src alt
          (name poke) (url poke).
Proof.
  intros H0 Hsu H1 He Hload Herr.
  rewrite (details_success _ _ _ _ _ _ _ _ _ _ _ H0 Hsu H1 He).
  unfold App.final, App.list_view, Components.PokemonList. cbn. rewrite Hload, Herr, Hsu.
  split; [done |]. intros poke Hp. unfold Components.card, Components.isSelected.
  rewrite bool_decide_eq_false_2 by done.
  assert (bool_decide (Some (url poke) = Some su) = bool_decide (url poke = su)) as ->.
  { apply bool_decide_ext. split; [by intros [= ->] | by intros ->]. }
  destruct (Components.truthy (image poke)); eauto.
Qed.

Lemma highlight_follows_the_species_address_witness :
  Components.content
    (App.list_view (App.final (App.fetchPokemonDetails (li_url Sample.pikachu)
                                 Scenario.pokeapi Scenario.listed_state)
                      Scenario.listed_state))
  = Components.Grid (Components.card (Some Scenario.pikachu_species)
                       <$> App.pokemonList Scenario.listed_state) ∧
  ∀ poke, isLoading poke ≠ Some true →
    ∃ src alt, Components.card (Some Scenario.pikachu_species) poke
      = Components.PokemonCard (name poke)
          (bool_decide (url poke = Scenario.pikachu_species)) src alt
          (name poke) (url poke).
Proof.
  apply (highlight_follows_the_species_address
           (li_url Sample.pikachu) Scenario.pokeapi Scenario.listed_state
           30 5 Scenario.pikachu_record Scenario.pikachu_species
           30 5 Scenario.pikachu_species_record
           [Scenario.japanese; Scenario.english]);
    reflexivity.
Defined.

(** X9: when nothing was selected and a first [fetchPokemonDetails] has
    failed, the retry handler sends no request and changes nothing. *)
Theorem retry_after_a_failed_first_selection url net net' s0 :
  App.selectedPokemon s0 = None →
  App.finished (App.fetchPokemonDetails url net s0) = true →
  App.detailsError (App.final (App.fetchPokemonDetails url net s0) s0) ≠ None →
  App.onRetry net' (App.final (App.fetchPokemonDetails url net s0) s0)
  = Some {| App.shown := []; App.requested := []; App.finished := true |}.
Proof.
  intros Hsel. unfold App.fetchPokemonDetails, App.final, App.onRetry.
  destruct (net 0 url) as [t rd [d |] | t |]; cbn; try done; try (by rewrite Hsel).
  destruct (App.species_url d) as [su |]; cbn; try (by rewrite Hsel).
  destruct (net 1 su) as [t' rd' [sd |] | t' |]; cbn; try done; try (by rewrite Hsel).
  destruct (App.flavor_text_entries sd) as [entries |]; cbn; [done | by rewrite Hsel].
Qed.

Lemma retry_after_a_failed_first_selection_witness :
  App.onRetry Scenario.pokeapi
    (App.final (App.fetchPokemonDetails "https://pokeapi.co/api/v2/pokemon/0/"
                  Scenario.pokeapi App.initial) App.initial)
  = Some {| App.shown := []; App.requested := []; App.finished := true |}.
Proof.
  apply (retry_after_a_failed_first_selection
           "https://pokeapi.co/api/v2/pokemon/0/" Scenario.pokeapi Scenario.pokeapi App.initial);
    [reflexivity | reflexivity | by vm_compute].
Defined.

(** ** The list handler *)

Lemma selectRandom_length data n samples sel :
  selectRandom data n samples = Returned sel → Z.of_nat (length sel) = Z.max 0 n.
Proof.
  intros Hsel. destruct (results data) as [rs |] eqn:Hdata.
  - by destruct (selectRandom_returned data rs n Hdata samples sel Hsel).
  - pose proof (selectRandom_no_results data n samples sel Hdata Hsel) as ->.
    unfold selectRandom in Hsel. destruct samples; cbn [select_loop length] in Hsel;
      destruct (Z.ltb_spec (Z.of_nat 0) n); rewrite ?Hdata in Hsel; try done; cbn; lia.
Qed.

Lemma selectRandom_placeholders data n samples sel :
  selectRandom data n samples = Returned sel →
  Forall (λ p, image p = None ∧ isLoading p = Some true) sel.
Proof.
  intros Hsel. destruct (results data) as [rs |] eqn:Hdata.
  - destruct (selectRandom_returned data rs n Hdata samples sel Hsel) as (_ & idxs & _ & Hp).
    apply Forall_lookup. intros i p Hi.
    destruct (Forall2_lookup_r _ _ _ _ _ Hp Hi) as (j & _ & x & _ & ->). done.
  - by rewrite (selectRandom_no_results data n samples sel Hdata Hsel).
Qed.

(** X10: [fetchPokemonList] of the component and the extracted utility,
    called with the same timeout and a count of ten, send the same
    requests; the component ends with the list the utility returns (and
    no error), ends with its error message where the utility rejects, and
    does not end where the utility does not settle. *)
Theorem component_and_utility_agree timeout w s0 :
  App.requested (App.fetchPokemonList timeout w s0)
  = requests (fetchPokemonListWithDetails (App.as_options timeout) w) ∧
  match result (fetchPokemonListWithDetails (App.as_options timeout) w) with
  | Returned out =>
      App.finished (App.fetchPokemonList timeout w s0) = true ∧
      App.final (App.fetchPokemonList timeout w s0) s0
      = App.setPokemonList out (App.setLoading false (App.setError None s0))
  | Threw _ =>
      App.finished (App.fetchPokemonList timeout w s0) = true ∧
      App.final (App.fetchPokemonList timeout w s0) s0
      = App.setLoading false (App.setError (Some "Failed to load Pokemon list") s0)
  | Spinning | Pending =>
      App.finished (App.fetchPokemonList timeout w s0) = false
  end.
Proof.
  unfold App.fetchPokemonList, fetchPokemonListWithDetails, App.as_options, timeout_of, count_of.
  cbn [requestTimeout count from_option id].
  destruct (listing w) as [t rd [data |] | t |]; cbn; try done.
  destruct (selectRandom data 10 (samples w)) as [rp | e | |]; cbn; try done.
  destruct (loadDetails timeout (details w) (order w) rp) as [[out took] | e | |] eqn:Hd;
    cbn; try done.
  by apply loadDetails_never_throws in Hd.
Qed.

(** X11: once the ten entries are selected, and until the details have
    settled, the list shows one skeleton card per selected entry, in
    selection order, and an enabled Refresh button. *)
Theorem skeletons_are_shown_while_details_load requestTimeout w s0 t rd data rp :
  listing w = Arrives t rd (Parsed data) →
  selectRandom data 10 (samples w) = Returned rp →
  ∃ s2, App.shown (App.fetchPokemonList requestTimeout w s0) !! 1 = Some s2 ∧
    App.list_view s2
    = {| Components.button := "Refresh"; Components.button_disabled := false;
         Components.content := Components.Grid (Components.SkeletonCard ∘ name <$> rp) |} ∧
    length rp = 10.
Proof.
  intros Hl Hs. unfold App.fetchPokemonList. rewrite Hl, Hs.
  eexists. split.
  { by destruct (loadDetails _ _ _ _) as [[out took] | | |]. }
  split; [| apply selectRandom_length in Hs; lia].
  unfold App.list_view, Components.PokemonList. cbn. do 2 f_equal.
  apply Forall_fmap_ext, Forall_lookup. intros i p Hi.
  pose proof (selectRandom_placeholders _ _ _ _ Hs) as Hph.
  rewrite Forall_lookup in Hph. destruct (Hph i p Hi) as [_ Hload].
  unfold Components.card. by rewrite Hload.
Qed.

Lemma skeletons_are_shown_while_details_load_witness :
  ∃ s2, App.shown (App.fetchPokemonList 50 Scenario.ten_listed App.initial) !! 1 = Some s2 ∧
    App.list_view s2
    = {| Components.button := "Refresh"; Components.button_disabled := false;
         Components.content :=
           Components.Grid (Components.SkeletonCard ∘ name <$> Scenario.ten_chosen) |} ∧
    length Scenario.ten_chosen = 10.
Proof.
  apply (skeletons_are_shown_while_details_load
           50 Scenario.ten_listed App.initial 20 5
           {| results := Some Scenario.ten |} Scenario.ten_chosen);
    by_evaluation.
Defined.

Lemma enrich_all_not_loading t net rp :
  Forall (λ o, isLoading o = Some false) (enrich_all t net rp).
Proof.
  apply Forall_lookup. intros i o. unfold enrich_all. rewrite list_lookup_imap.
  destruct (rp !! i) as [p |]; [| done]. intros [= <-]. apply enriched_isLoading.
Qed.

(** X12: when [fetchPokemonList] has run to its end the list shows either
    the error text with an enabled Retry button, or ten cards none of
    which is a skeleton, with an enabled Refresh button; never the loading
    text. *)
Theorem finished_list_fetch_shows_cards_or_the_error requestTimeout w s0 :
  App.finished (App.fetchPokemonList requestTimeout w s0) = true →
  App.list_view (App.final (App.fetchPokemonList requestTimeout w s0) s0)
  = {| Components.button := "Retry"; Components.button_disabled := false;
       Components.content := Components.ErrorText "Failed to load Pokemon list" |} ∨
  ∃ cells,
    App.list_view (App.final (App.fetchPokemonList requestTimeout w s0) s0)
    = {| Components.button := "Refresh"; Components.button_disabled := false;
         Components.content := Components.Grid cells |} ∧
    length cells = 10 ∧
    Forall (λ c, Components.is_skeleton c = false) cells.
Proof.
  unfold App.fetchPokemonList.
  destruct (listing w) as [t rd [data |] | t |]; cbn; try done; try (by left).
  destruct (selectRandom data 10 (samples w)) as [rp | e | |] eqn:Hs; cbn; try done;
    try (by left).
  destruct (loadDetails requestTimeout (details w) (order w) rp) as [[out took] | e | |] eqn:Hd;
    cbn; try done; try (by left).
  intros _. right. eexists. split; [done |].
  pose proof (loadDetails_returned _ _ _ _ _ _ Hd) as Hall.
  rewrite (loadDetails_resolves _ _ _ _ Hall) in Hd. injection Hd as <- _.
  split.
  - rewrite length_fmap, enrich_all_length. apply selectRandom_length in Hs. lia.
  - apply Forall_fmap. eapply Forall_impl; [apply enrich_all_not_loading |].
    intros o Ho. unfold Components.card. cbn. rewrite Ho. cbn.
    by destruct (Components.truthy (image o)).
Qed.

Lemma finished_list_fetch_shows_cards_or_the_error_witness :
  App.list_view (App.final (App.fetchPokemonList 50 Scenario.nothing_listed App.initial)
                   App.initial)
  = {| Components.button := "Retry"; Components.button_disabled := false;
       Components.content := Components.ErrorText "Failed to load Pokemon list" |} ∨
  ∃ cells,
    App.list_view (App.final (App.fetchPokemonList 50 Scenario.nothing_listed App.initial)
                     App.initial)
    = {| Components.button := "Refresh"; Components.button_disabled := false;
         Components.content := Components.Grid cells |} ∧
    length cells = 10 ∧
    Forall (λ c, Components.is_skeleton c = false) cells.
Proof.
  apply (finished_list_fetch_shows_cards_or_the_error 50 Scenario.nothing_listed App.initial).
  vm_compute. reflexivity.
Defined.

(** X13: [fetchPokemonList] never changes the selection, the loading flag
    or the error of the details panel; after [handleRefresh] every state
    it commits has no selection and no details error. *)
Theorem list_fetch_leaves_the_details_panel_alone requestTimeout w s0 :
  Forall (λ s, App.selectedPokemon s = App.selectedPokemon s0 ∧
               App.detailsLoading s = App.detailsLoading s0 ∧
               App.detailsError s = App.detailsError s0)
    (App.shown (App.fetchPokemonList requestTimeout w s0)) ∧
  Forall (λ s, App.selectedPokemon s = None ∧ App.detailsError s = None ∧
               App.detailsLoading s = App.detailsLoading s0)
    (App.shown (App.handleRefresh requestTimeout w s0)).
Proof.
  unfold App.handleRefresh, App.fetchPokemonList.
  destruct (listing w) as [t rd [data |] | t |]; cbn; try (split; by repeat constructor).
  destruct (selectRandom data 10 (samples w)) as [rp | e | |]; cbn;
    try (split; by repeat constructor).
  destruct (loadDetails requestTimeout (details w) (order w) rp) as [[out took] | e | |];
    cbn; split; by repeat constructor.
Qed.

(** X14: an item whose retrieval raised is shown, once [fetchPokemonList]
    has run to its end, as a card (not a skeleton) with the placeholder
    picture and the text "Pokemon sprite unavailable", under its own name
    and with its own address behind the click. *)
Theorem failed_item_is_shown_with_the_placeholder timeout w s0 t rd data rp i p e :
  listing w = Arrives t rd (Parsed data) →
  selectRandom data 10 (samples w) = Returned rp →
  settles_all (order w) (length rp) →
  rp !! i = Some p →
  raises timeout p (details w i (url p)) e →
  ∃ cells,
    Components.content (App.list_view (App.final (App.fetchPokemonList timeout w s0) s0))
    = Components.Grid cells ∧
    ∃ selected,
      cells !! i
      = Some (Components.PokemonCard (name p) selected Components.placeholder_src
                "Pokemon sprite unavailable" (name p) (url p)).
Proof.
  intros Hl Hs Hall Hp He. unfold App.fetchPokemonList. rewrite Hl, Hs.
  rewrite (loadDetails_resolves _ _ _ _ Hall).
  unfold App.final, App.list_view, Components.PokemonList. cbn.
  eexists. split; [done |]. eexists.
  rewrite list_lookup_fmap, (enrich_all_lookup _ _ _ _ _ Hp), (enriched_raises _ _ _ _ He).
  reflexivity.
Qed.

Lemma failed_item_is_shown_with_the_placeholder_witness :
  ∃ cells,
    Components.content
      (App.list_view (App.final (App.fetchPokemonList 50 Scenario.ten_failing App.initial)
                        App.initial))
    = Components.Grid cells ∧
    ∃ selected,
      cells !! 3
      = Some (Components.PokemonCard "pokemon-3" selected Components.placeholder_src
                "Pokemon sprite unavailable" "pokemon-3"
                "https://pokeapi.co/api/v2/pokemon/3/").
Proof.
  apply (failed_item_is_shown_with_the_placeholder
           50 Scenario.ten_failing App.initial 20 5
           {| results := Some Scenario.ten |} Scenario.ten_chosen 3
           {| name := "pokemon-3"; url := "https://pokeapi.co/api/v2/pokemon/3/";
              image := None; isLoading := Some true |}
           NetworkError);
    by_evaluation.
Defined.
